(** * FileTracker: a machine-checked model of server/src/libs/file-tracker.ts

    The tracker keeps one record per tracked path, reacts to editor and
    file-system events, and reloads stale records through asynchronous
    functions.  The model is a shallow embedding:

    - the synchronous parts of every method are functions in a state monad
      over the tracker's fields, a heap of [TrackMapItem] objects (records
      are shared by reference between the registry map and suspended async
      functions), a promise store and an event trace;
    - every [await] is a suspension point: the rest of the async function is
      a defunctionalised continuation ([cont]) stored in a task pool;
    - the run-time system is a step function [exec] over [action]s: an
      external call, the resumption of a suspended task whose awaited
      promises are settled, or the completion of an I/O request. *)

From stdpp Require Import gmap strings list.
From Stdlib Require Import ZArith Ascii.

Open Scope Z_scope.

(** ** External libraries

    Functions of Node, minimatch and vscode-languageserver that the file
    only calls.  They are taken as an interface. *)

Class Externals := {
  path_isAbsolute : string → bool;
  path_extname : string → string;
  path_normalize : string → string;
  toLowerCase : string → string;
  Uri_file : string → string;
  uriToFilePath : string → option string;
  minimatch : string → string → bool      (* pattern, then path *)
}.

(** ** Data model *)

Record TextDocument := {
  uri : string;
  languageId : string;
  doc_version : Z;
  text : string
}.

Definition TextDocument_create (u l : string) (v : Z) (t : string) : TextDocument :=
  {| uri := u; languageId := l; doc_version := v; text := t |}.

(** References into the heap of items and into the promise store. *)
Abbreviation ref := nat (only parsing).
Abbreviation pid := nat (only parsing).

Record TrackMapItem := {
  document : option TextDocument;
  version : Z;
  opened : bool;
  fresh : bool;
  updatePromise : option pid
}.

Definition with_document (d : option TextDocument) (it : TrackMapItem) : TrackMapItem :=
  {| document := d; version := version it; opened := opened it;
     fresh := fresh it; updatePromise := updatePromise it |}.
Definition with_version (v : Z) (it : TrackMapItem) : TrackMapItem :=
  {| document := document it; version := v; opened := opened it;
     fresh := fresh it; updatePromise := updatePromise it |}.
Definition with_opened (b : bool) (it : TrackMapItem) : TrackMapItem :=
  {| document := document it; version := version it; opened := b;
     fresh := fresh it; updatePromise := updatePromise it |}.
Definition with_fresh (b : bool) (it : TrackMapItem) : TrackMapItem :=
  {| document := document it; version := version it; opened := opened it;
     fresh := b; updatePromise := updatePromise it |}.
Definition with_updatePromise (p : option pid) (it : TrackMapItem) : TrackMapItem :=
  {| document := document it; version := version it; opened := opened it;
     fresh := fresh it; updatePromise := p |}.

Inductive FileChangeType := Created | Changed | Deleted.

Record FileEvent := { change_uri : string; change_type : FileChangeType }.

(** What [getStat] answers: only [isFile()] and [isDirectory()] are used. *)
Inductive Stats := StatFile | StatDirectory | StatOther.

Record FileTrackerOptions := {
  opt_includeGlobPattern : string;
  opt_excludeGlobPattern : option string;
  opt_updateImmediately : option bool;
  opt_startPath : option string
}.

(** ** The JavaScript [Map] with string keys

    Insertion-ordered; [set] on an existing key replaces the value in
    place, on a new key appends. *)
Module JsMap.
Abbreviation t V := (list (string * V)) (only parsing).

Fixpoint get {V} (k : string) (m : t V) : option V :=
    match m with
    | [] => None
    | (k', v) :: m' => if String.eqb k' k then Some v else get k m'
    end.

Definition has {V} (k : string) (m : t V) : bool :=
    match get k m with Some _ => true | None => false end.

Fixpoint set {V} (k : string) (v : V) (m : t V) : t V :=
    match m with
    | [] => [(k, v)]
    | (k', v') :: m' =>
        if String.eqb k' k then (k', v) :: m' else (k', v') :: set k v m'
    end.

Fixpoint delete {V} (k : string) (m : t V) : t V :=
    match m with
    | [] => []
    | (k', v) :: m' =>
        if String.eqb k' k then delete k m' else (k', v) :: delete k m'
    end.

Definition keys {V} (m : t V) : list string := m.*1.

  (** A [Map] holds each key once. *)
Definition wf {V} (m : t V) : Prop := NoDup (keys m).
End JsMap.

(** ** Observable effects *)

Inductive event :=
| Log (msg : string)                          (* console.log(message) *)
| LogError (filePath : string)                (* console.log(err) in the catch *)
| LogUpdated (count : nat)                    (* "<n> files updated in <timer.end> milliseconds" *)
| TimerStart (name : string)
| OnTrack (filePath : string) (item : ref)
| OnExpired (filePath : string) (item : ref)
| OnUpdate (filePath : string) (item : ref)
| OnUnTrack (filePath : string) (item : ref)
| ReadText (filePath : string)                (* readText(filePath) started *)
| GetStat (path : string)
| Glob (pattern : string) (ignore : option string).

(** ** Promises, requests to the environment, suspended tasks *)

Inductive value :=
| VUndefined
| VBool (b : bool)
| VText (r : option string)            (* readText: [None] is a rejected read *)
| VDocument (d : option TextDocument)
| VStat (st : Stats)
| VPaths (l : list string).

Inductive promise := Pending | Settled (v : value).

Inductive request :=
| RReadText (filePath : string)
| RGetStat (path : string)
| RGlob (pattern : string) (ignore : option string)
| ROnUpdate (filePath : string) (item : ref).

(** The rest of an async function after one of its [await]s. *)
Inductive cont :=
| KLoadDocument (filePath langId docUri : string)
    (* loadDocumentFromFilePath after [await readText(filePath)] *)
| KUpdateLoaded (filePath : string) (item : ref)
    (* getUpdatePromise after [await this.loadDocumentFromFilePath(filePath)] *)
| KUpdateHooked (filePath : string) (hasDocumentBefore : bool)
    (* getUpdatePromise after [await this.onUpdate(filePath, item)] *)
| KDoUpdate (item : ref)
    (* doUpdate after [await item.updatePromise] *)
| KBeFreshStart
    (* beFresh after [await this.loadStartPath()] *)
| KBeFreshAll
    (* beFresh after [await Promise.all(promises)] *)
| KLoadStartPath
    (* loadStartPath after [await this.trackPath(this.startPath!)] *)
| KTrackPathStat (fileOrFolderPath : string)
    (* trackPath after [await getStat(fileOrFolderPath)] *)
| KTrackPathDone
    (* trackPath after [await this.trackFolder(..)] or [await this.trackFile(..)] *)
| KTrackFolder
    (* trackFolder after [await this.getFilePathsInFolder(folderPath)] *)
| KGetFilePaths
    (* getFilePathsInFolder after [await glob(..)] *)
| KWatchedStat (fileOrFolderPath : string) (rest : list FileEvent)
    (* onWatchedPathChanged after [await getStat(fileOrFolderPath)] *).

Record task := {
  awaits : list pid;      (* one promise, or the arguments of Promise.all *)
  self : pid;             (* the promise of the suspended async call *)
  kont : cont
}.

(** ** The state: the tracker's fields and the run-time store *)

Record State := {
  includeGlobPattern : string;
  excludeGlobPattern : option string;
  updateImmediately : bool;
  startPath : option string;
  tmap : JsMap.t ref;                      (* this.map *)
  ignoredFilePaths : gset string;
  allFresh : bool;
  startPathLoaded : bool;
  heap : list TrackMapItem;                (* the TrackMapItem objects *)
  promises : list promise;
  pending_io : list (pid * request);       (* requests the environment has not answered *)
  tasks : list task;
  trace : list event
}.

Definition set_tmap (f : JsMap.t ref → JsMap.t ref) (s : State) : State :=
  {| includeGlobPattern := includeGlobPattern s; excludeGlobPattern := excludeGlobPattern s;
     updateImmediately := updateImmediately s; startPath := startPath s;
     tmap := f (tmap s); ignoredFilePaths := ignoredFilePaths s;
     allFresh := allFresh s; startPathLoaded := startPathLoaded s;
     heap := heap s; promises := promises s; pending_io := pending_io s;
     tasks := tasks s; trace := trace s |}.
Definition set_ignoredFilePaths (f : gset string → gset string) (s : State) : State :=
  {| includeGlobPattern := includeGlobPattern s; excludeGlobPattern := excludeGlobPattern s;
     updateImmediately := updateImmediately s; startPath := startPath s;
     tmap := tmap s; ignoredFilePaths := f (ignoredFilePaths s);
     allFresh := allFresh s; startPathLoaded := startPathLoaded s;
     heap := heap s; promises := promises s; pending_io := pending_io s;
     tasks := tasks s; trace := trace s |}.
Definition set_allFresh (b : bool) (s : State) : State :=
  {| includeGlobPattern := includeGlobPattern s; excludeGlobPattern := excludeGlobPattern s;
     updateImmediately := updateImmediately s; startPath := startPath s;
     tmap := tmap s; ignoredFilePaths := ignoredFilePaths s;
     allFresh := b; startPathLoaded := startPathLoaded s;
     heap := heap s; promises := promises s; pending_io := pending_io s;
     tasks := tasks s; trace := trace s |}.
Definition set_startPathLoaded (b : bool) (s : State) : State :=
  {| includeGlobPattern := includeGlobPattern s; excludeGlobPattern := excludeGlobPattern s;
     updateImmediately := updateImmediately s; startPath := startPath s;
     tmap := tmap s; ignoredFilePaths := ignoredFilePaths s;
     allFresh := allFresh s; startPathLoaded := b;
     heap := heap s; promises := promises s; pending_io := pending_io s;
     tasks := tasks s; trace := trace s |}.
Definition set_heap (f : list TrackMapItem → list TrackMapItem) (s : State) : State :=
  {| includeGlobPattern := includeGlobPattern s; excludeGlobPattern := excludeGlobPattern s;
     updateImmediately := updateImmediately s; startPath := startPath s;
     tmap := tmap s; ignoredFilePaths := ignoredFilePaths s;
     allFresh := allFresh s; startPathLoaded := startPathLoaded s;
     heap := f (heap s); promises := promises s; pending_io := pending_io s;
     tasks := tasks s; trace := trace s |}.
Definition set_promises (f : list promise → list promise) (s : State) : State :=
  {| includeGlobPattern := includeGlobPattern s; excludeGlobPattern := excludeGlobPattern s;
     updateImmediately := updateImmediately s; startPath := startPath s;
     tmap := tmap s; ignoredFilePaths := ignoredFilePaths s;
     allFresh := allFresh s; startPathLoaded := startPathLoaded s;
     heap := heap s; promises := f (promises s); pending_io := pending_io s;
     tasks := tasks s; trace := trace s |}.
Definition set_pending_io (f : list (pid * request) → list (pid * request)) (s : State) : State :=
  {| includeGlobPattern := includeGlobPattern s; excludeGlobPattern := excludeGlobPattern s;
     updateImmediately := updateImmediately s; startPath := startPath s;
     tmap := tmap s; ignoredFilePaths := ignoredFilePaths s;
     allFresh := allFresh s; startPathLoaded := startPathLoaded s;
     heap := heap s; promises := promises s; pending_io := f (pending_io s);
     tasks := tasks s; trace := trace s |}.
Definition set_tasks (f : list task → list task) (s : State) : State :=
  {| includeGlobPattern := includeGlobPattern s; excludeGlobPattern := excludeGlobPattern s;
     updateImmediately := updateImmediately s; startPath := startPath s;
     tmap := tmap s; ignoredFilePaths := ignoredFilePaths s;
     allFresh := allFresh s; startPathLoaded := startPathLoaded s;
     heap := heap s; promises := promises s; pending_io := pending_io s;
     tasks := f (tasks s); trace := trace s |}.
Definition set_trace (f : list event → list event) (s : State) : State :=
  {| includeGlobPattern := includeGlobPattern s; excludeGlobPattern := excludeGlobPattern s;
     updateImmediately := updateImmediately s; startPath := startPath s;
     tmap := tmap s; ignoredFilePaths := ignoredFilePaths s;
     allFresh := allFresh s; startPathLoaded := startPathLoaded s;
     heap := heap s; promises := promises s; pending_io := pending_io s;
     tasks := tasks s; trace := f (trace s) |}.

(** ** A state monad for the method bodies *)

Definition M (A : Type) : Type := State → A * State.

Definition ret {A} (a : A) : M A := λ s, (a, s).
Definition bind {A B} (m : M A) (f : A → M B) : M B :=
  λ s, let r := m s in f r.1 r.2.
Definition gets {A} (f : State → A) : M A := λ s, (f s, s).
Definition modify (f : State → State) : M unit := λ s, (tt, f s).

Declare Scope tracker_scope.
Delimit Scope tracker_scope with tracker.
Notation "x <- m ;; k" := (bind m (λ x, k))
  (at level 100, m at next level, k at level 200, right associativity) : tracker_scope.
Notation "m ;; k" := (bind m (λ _, k))
  (at level 100, k at level 200, right associativity) : tracker_scope.
Open Scope tracker_scope.

(** State after / result of a computation. *)
Definition exec_M {A} (m : M A) (s : State) : State := (m s).2.
Definition eval_M {A} (m : M A) (s : State) : A := (m s).1.

Fixpoint forM_ {A} (l : list A) (f : A → M unit) : M unit :=
  match l with
  | [] => ret tt
  | x :: l' => (f x ;; forM_ l' f)
  end.

(** ** Primitive operations on the store *)

Definition blank_item : TrackMapItem :=
  {| document := None; version := 0; opened := false; fresh := false;
     updatePromise := None |}.

(** Read the object behind a reference. *)
Definition item_at (s : State) (r : ref) : TrackMapItem :=
  default blank_item (heap s !! r).

Definition read_item (r : ref) : M TrackMapItem := gets (λ s, item_at s r).
Definition update_item (r : ref) (f : TrackMapItem → TrackMapItem) : M unit :=
  modify (set_heap (alter f r)).
Definition new_item (it : TrackMapItem) : M ref :=
  λ s, (length (heap s), set_heap (λ h, h ++ [it]) s).

Definition emit (e : event) : M unit := modify (set_trace (λ t, t ++ [e])).
Definition console_log (msg : string) : M unit := emit (Log msg).

Definition new_promise : M pid :=
  λ s, (length (promises s), set_promises (λ ps, ps ++ [Pending]) s).
Definition settle (p : pid) (v : value) : M unit :=
  modify (set_promises (λ ps, <[p := Settled v]> ps)).
Definition promise_at (s : State) (p : pid) : promise :=
  default Pending (promises s !! p).
Definition spawn (aw : list pid) (me : pid) (k : cont) : M unit :=
  modify (set_tasks (λ ts, ts ++ [{| awaits := aw; self := me; kont := k |}])).
(** A call into the environment: returns a promise the environment settles. *)
Definition request_io (rq : request) : M pid :=
  p <- new_promise ;;
  modify (set_pending_io (λ io, io ++ [(p, rq)])) ;;
  ret p.

(** JavaScript truthiness of a (possibly missing) string. *)
Definition truthy (o : option string) : bool :=
  match o with
  | Some s => negb (String.eqb s EmptyString)
  | None => false
  end.

(** [folderPath.replace(/\\/g, '/')] *)
Fixpoint backslashes_to_slashes (s : string) : string :=
  match s with
  | EmptyString => EmptyString
  | String c s' =>
      String (if Ascii.eqb c "\"%char then "/"%char else c) (backslashes_to_slashes s')
  end.

(** [s.slice(1)] *)
Definition slice1 (s : string) : string :=
  match s with
  | EmptyString => EmptyString
  | String _ s' => s'
  end.

Definition dquote : string := String "034"%char EmptyString.

(** * The methods of [FileTracker] *)

Section FileTracker.
  Context `{Externals}.

  (** ** Path filter *)

Definition excludeMatcher_match (s : State) (path : string) : bool :=
    match excludeGlobPattern s with
    | Some pat => truthy (Some pat) && minimatch pat path
    | None => false
    end.

Definition canTrackFilePath (s : State) (filePath : string) : bool :=
    if negb (minimatch (includeGlobPattern s) filePath) then false
    else if excludeMatcher_match s filePath then false
    else true.

Definition canTrackPath (s : State) (fileOrFolderPath : string) : bool :=
    if excludeMatcher_match s fileOrFolderPath then false else true.

Definition has (s : State) (filePath : string) : bool :=
    JsMap.has filePath (tmap s).

  (** ** Ignore set *)

Definition ignore (filePath : string) : M unit :=
    modify (set_ignoredFilePaths (λ g, {[filePath]} ∪ g)) ;;
    console_log (filePath +:+ " ignored").

Definition notIgnore (filePath : string) : M unit :=
    modify (set_ignoredFilePaths (λ g, g ∖ {[filePath]})) ;;
    console_log (filePath +:+ " restored from ignored").

Definition hasIgnored (s : State) (filePath : string) : bool :=
    bool_decide (filePath ∈ ignoredFilePaths s).

  (** ** Reload of one record *)

  (** The overridable hook [onUpdate] is async: the call is recorded and the
      promise it returns is settled by the environment. *)
Definition onUpdate (filePath : string) (item : ref) : M pid :=
    emit (OnUpdate filePath item) ;;
    request_io (ROnUpdate filePath item).

Definition readText (filePath : string) : M pid :=
    emit (ReadText filePath) ;;
    request_io (RReadText filePath).

Definition getStat (path : string) : M pid :=
    emit (GetStat path) ;;
    request_io (RGetStat path).

Definition glob (pattern : string) (ign : option string) : M pid :=
    emit (Glob pattern ign) ;;
    request_io (RGlob pattern ign).

  (** loadDocumentFromFilePath, up to [await readText(filePath)]. *)
Definition loadDocumentFromFilePath (filePath : string) : M pid :=
    me <- new_promise ;;
    let langId := toLowerCase (slice1 (path_extname filePath)) in
    let docUri := Uri_file filePath in
    rd <- readText filePath ;;
    spawn [rd] me (KLoadDocument filePath langId docUri) ;;
    ret me.

  (** loadDocumentFromFilePath, after the read has settled: the [try] body
      or the [catch]. *)
Definition loadDocument_resume (me : pid) (filePath langId docUri : string)
      (v : value) : M unit :=
    match v with
    | VText (Some txt) =>
        settle me (VDocument (Some (TextDocument_create docUri langId 1 txt)))
    | _ =>
        emit (LogError filePath) ;;
        settle me (VDocument None)
    end.

  (** getUpdatePromise from [item.fresh = true] to [await this.onUpdate(..)]. *)
Definition getUpdatePromise_fresh (me : pid) (filePath : string) (item : ref)
      (hasDocumentBefore : bool) : M unit :=
    update_item item (with_fresh true) ;;
    h <- onUpdate filePath item ;;
    spawn [h] me (KUpdateHooked filePath hasDocumentBefore).

Definition hasDocument (it : TrackMapItem) : bool :=
    opened it && match document it with Some _ => true | None => false end.

Definition getUpdatePromise (filePath : string) (item : ref) : M pid :=
    me <- new_promise ;;
    it <- read_item item ;;
    let hasDocumentBefore := hasDocument it in
    if negb hasDocumentBefore then
      ld <- loadDocumentFromFilePath filePath ;;
      spawn [ld] me (KUpdateLoaded filePath item) ;;
      ret me
    else
      getUpdatePromise_fresh me filePath item true ;;
      ret me.

  (** getUpdatePromise after [await this.loadDocumentFromFilePath(filePath)]. *)
Definition getUpdatePromise_loaded (me : pid) (filePath : string) (item : ref)
      (v : value) : M unit :=
    let doc := match v with VDocument d => d | _ => None end in
    update_item item (with_document doc) ;;
    match doc with
    | Some d => update_item item (with_version (doc_version d))
    | None => ret tt
    end ;;
    getUpdatePromise_fresh me filePath item false.

  (** getUpdatePromise after [await this.onUpdate(filePath, item)]. *)
Definition getUpdatePromise_hooked (me : pid) (filePath : string)
      (hasDocumentBefore : bool) : M unit :=
    console_log (filePath +:+ " loaded from " +:+
                 (if hasDocumentBefore then "document" else "file")) ;;
    settle me VUndefined.

Definition doUpdate (filePath : string) (item : ref) : M pid :=
    me <- new_promise ;;
    ign <- gets ignoredFilePaths ;;
    if negb (bool_decide (filePath ∈ ign)) then
      it <- read_item item ;;
      p <- match updatePromise it with
           | Some p => ret p
           | None => getUpdatePromise filePath item
           end ;;
      update_item item (with_updatePromise (Some p)) ;;
      spawn [p] me (KDoUpdate item) ;;
      ret me
    else
      settle me (VBool false) ;;
      ret me.

  (** doUpdate after [await item.updatePromise]. *)
Definition doUpdate_resume (me : pid) (item : ref) : M unit :=
    update_item item (with_updatePromise None) ;;
    settle me (VBool true).

  (** ** Tracking *)

Definition handleTrackFollowed (filePath : string) (item : ref) : M unit :=
    upd <- gets updateImmediately ;;
    if upd then
      _ <- doUpdate filePath item ;; ret tt
    else
      modify (set_allFresh false) ;;
      console_log (filePath +:+ " tracked") ;;
      emit (OnTrack filePath item).

Definition trackFile (filePath : string) : M unit :=
    o <- gets (λ s, JsMap.get filePath (tmap s)) ;;
    match o with
    | Some _ => ret tt
    | None =>
        item <- new_item {| document := None; version := 0; opened := false;
                            fresh := false; updatePromise := None |} ;;
        modify (set_tmap (JsMap.set filePath item)) ;;
        handleTrackFollowed filePath item
    end.

Definition handleExpired (filePath : string) (item : ref) : M unit :=
    it <- read_item item ;;
    upd <- gets updateImmediately ;;
    if negb (opened it) && upd then
      _ <- doUpdate filePath item ;; ret tt
    else
      update_item item (with_fresh false) ;;
      modify (set_allFresh false) ;;
      console_log (filePath +:+ " expired") ;;
      emit (OnExpired filePath item).

Definition reTrackFile (filePath : string) : M unit :=
    o <- gets (λ s, JsMap.get filePath (tmap s)) ;;
    match o with
    | Some item =>
        it <- read_item item ;;
        if opened it then
          upd <- gets updateImmediately ;;
          if negb (fresh it) && upd then
            _ <- doUpdate filePath item ;; ret tt
          else ret tt
        else
          update_item item (with_document None) ;;
          update_item item (with_version 0) ;;
          handleExpired filePath item
    | None => trackFile filePath
    end.

Definition trackOpenedFile (filePath : string) (doc : TextDocument) : M unit :=
    o <- gets (λ s, JsMap.get filePath (tmap s)) ;;
    match o with
    | Some item =>
        it <- read_item item ;;
        let changed := bool_decide (doc_version doc > version it) in
        update_item item (with_document (Some doc)) ;;
        update_item item (with_version (doc_version doc)) ;;
        update_item item (with_opened true) ;;
        it' <- read_item item ;;
        if changed && fresh it' then handleExpired filePath item else ret tt
    | None =>
        item <- new_item {| document := Some doc; version := doc_version doc;
                            opened := true; fresh := false; updatePromise := None |} ;;
        modify (set_tmap (JsMap.set filePath item)) ;;
        handleTrackFollowed filePath item
    end.

Definition unTrackOpenedFile (filePath : string) : M unit :=
    o <- gets (λ s, JsMap.get filePath (tmap s)) ;;
    match o with
    | Some item =>
        update_item item (with_document None) ;;
        update_item item (with_version 1) ;;
        update_item item (with_opened false) ;;
        console_log (filePath +:+ " closed")
    | None => ret tt
    end.

  (** The body of the loop of unTrackPath for one key. *)
Definition unTrackPath_key (deletedPath filePath : string) : M unit :=
    if String.prefix deletedPath filePath then
      o <- gets (λ s, JsMap.get filePath (tmap s)) ;;
      match o with
      | Some item =>
          modify (set_tmap (JsMap.delete filePath)) ;;
          modify (set_ignoredFilePaths (λ g, g ∖ {[filePath]})) ;;
          console_log (filePath +:+ " removed") ;;
          emit (OnUnTrack filePath item)
      | None => ret tt
      end
    else ret tt.

  (** The loop deletes only the key it is visiting, which a [Map] iterator
      tolerates: it visits exactly the keys present at the start. *)
Definition unTrackPath (deletedPath : string) : M unit :=
    ks <- gets (λ s, JsMap.keys (tmap s)) ;;
    forM_ ks (unTrackPath_key deletedPath) ;;
    modify (set_allFresh false).

  (** ** Scanning folders: trackPath, trackFolder, loadStartPath *)

  (** getFilePathsInFolder, up to [await glob(..)]. *)
Definition getFilePathsInFolder (folderPath : string) : M pid :=
    me <- new_promise ;;
    incl <- gets includeGlobPattern ;;
    excl <- gets excludeGlobPattern ;;
    g <- glob (backslashes_to_slashes folderPath +:+ "/" +:+ incl)
              (if truthy excl then excl else None) ;;
    spawn [g] me KGetFilePaths ;;
    ret me.

Definition getFilePathsInFolder_resume (me : pid) (v : value) : M unit :=
    let cssFilePaths := match v with VPaths l => l | _ => [] end in
    settle me (VPaths (map path_normalize cssFilePaths)).

  (** trackFolder, up to [await this.getFilePathsInFolder(folderPath)]. *)
Definition trackFolder (folderPath : string) : M pid :=
    me <- new_promise ;;
    g <- getFilePathsInFolder folderPath ;;
    spawn [g] me KTrackFolder ;;
    ret me.

Definition trackFolder_resume (me : pid) (v : value) : M unit :=
    let filePaths := match v with VPaths l => l | _ => [] end in
    forM_ filePaths trackFile ;;
    settle me VUndefined.

  (** trackPath, up to [await getStat(fileOrFolderPath)]. *)
Definition trackPath (fileOrFolderPath : string) : M pid :=
    me <- new_promise ;;
    ok <- gets (λ s, canTrackPath s fileOrFolderPath) ;;
    if negb ok then
      settle me VUndefined ;; ret me
    else
      st <- getStat fileOrFolderPath ;;
      spawn [st] me (KTrackPathStat fileOrFolderPath) ;;
      ret me.

Definition trackPath_resume (me : pid) (fileOrFolderPath : string) (v : value) : M unit :=
    match v with
    | VStat StatDirectory =>
        f <- trackFolder fileOrFolderPath ;;
        spawn [f] me KTrackPathDone
    | VStat StatFile =>
        ok <- gets (λ s, canTrackFilePath s fileOrFolderPath) ;;
        if ok then
          trackFile fileOrFolderPath ;;
          spawn [] me KTrackPathDone        (* [await] of the undefined result *)
        else settle me VUndefined
    | _ => settle me VUndefined
    end.

  (** loadStartPath, up to [await this.trackPath(this.startPath!)]. *)
Definition loadStartPath : M pid :=
    me <- new_promise ;;
    sp <- gets startPath ;;
    t <- trackPath (default EmptyString sp) ;;
    spawn [t] me KLoadStartPath ;;
    ret me.

Definition loadStartPath_resume (me : pid) : M unit :=
    modify (set_startPathLoaded true) ;;
    settle me VUndefined.

  (** ** The freshness barrier *)

  (** The [for] loop of beFresh over [this.map.entries()]: the promises of
      the doUpdate calls, in order. *)
Fixpoint beFresh_loop (entries : list (string * ref)) : M (list pid) :=
    match entries with
    | [] => ret []
    | (filePath, item) :: rest =>
        it <- read_item item ;;
        if negb (fresh it) then
          p <- doUpdate filePath item ;;
          ps <- beFresh_loop rest ;;
          ret (p :: ps)
        else beFresh_loop rest
    end.

  (** beFresh from the loop to [await Promise.all(promises)]. *)
Definition beFresh_updates (me : pid) : M unit :=
    entries <- gets tmap ;;
    ps <- beFresh_loop entries ;;
    spawn ps me KBeFreshAll.

Definition beFresh : M pid :=
    me <- new_promise ;;
    af <- gets allFresh ;;
    if negb af then
      emit (TimerStart "update") ;;
      loaded <- gets startPathLoaded ;;
      if negb loaded then
        l <- loadStartPath ;;
        spawn [l] me KBeFreshStart ;;
        ret me
      else
        beFresh_updates me ;;
        ret me
    else
      settle me VUndefined ;; ret me.

Definition is_true_value (p : promise) : bool :=
    match p with Settled (VBool true) => true | _ => false end.

  (** [updateResults.reduce((count, value) => count + (value ? 1 : 0), 0)] *)
Definition updatedCount (updateResults : list promise) : nat :=
    fold_left (λ count r, (count + (if is_true_value r then 1 else 0))%nat)
              updateResults 0%nat.

  (** beFresh after [await Promise.all(promises)]. *)
Definition beFresh_resume (me : pid) (updateResults : list promise) : M unit :=
    (if (0 <? updatedCount updateResults)%nat
     then emit (LogUpdated (updatedCount updateResults)) else ret tt) ;;
    modify (set_allFresh true) ;;
    settle me VUndefined.

  (** ** Events of the watch provider *)

Definition watched_changed (filePath : string) (v : value) : M unit :=
    match v with
    | VStat StatFile =>
        ok <- gets (λ s, canTrackFilePath s filePath) ;;
        if ok then reTrackFile filePath else ret tt
    | _ => ret tt
    end.

  (** The [for] loop of onWatchedPathChanged, up to its next [await]. *)
Fixpoint onWatchedPathChanged_loop (me : pid) (changes : list FileEvent) : M unit :=
    match changes with
    | [] => settle me VUndefined
    | change :: rest =>
        let fileOrFolderPath := uriToFilePath (change_uri change) in
        if negb (truthy fileOrFolderPath) then onWatchedPathChanged_loop me rest
        else
          let p := default EmptyString fileOrFolderPath in
          match change_type change with
          | Created =>
              _ <- trackPath p ;;
              onWatchedPathChanged_loop me rest
          | Changed =>
              st <- getStat p ;;
              spawn [st] me (KWatchedStat p rest)
          | Deleted =>
              unTrackPath p ;;
              onWatchedPathChanged_loop me rest
          end
    end.

Definition onWatchedPathChanged (changes : list FileEvent) : M pid :=
    me <- new_promise ;;
    onWatchedPathChanged_loop me changes ;;
    ret me.

  (** ** Events of the buffer provider *)

Definition onDocumentOpenOrContentChanged (doc : TextDocument) : M unit :=
    let filePath := uriToFilePath (uri doc) in
    ok <- gets (λ s, truthy filePath && canTrackFilePath s (default EmptyString filePath)) ;;
    if ok then trackOpenedFile (default EmptyString filePath) doc else ret tt.

Definition onDocumentSaved (doc : TextDocument) : M unit :=
    match uriToFilePath (uri doc) with
    | Some filePath =>
        o <- gets (λ s, JsMap.get filePath (tmap s)) ;;
        match o with
        | Some item =>
            it <- read_item item ;;
            upd <- gets updateImmediately ;;
            if negb (fresh it) && upd then
              _ <- doUpdate filePath item ;; ret tt
            else ret tt
        | None => ret tt
        end
    | None => ret tt
    end.

Definition onDocumentClosed (doc : TextDocument) : M unit :=
    match uriToFilePath (uri doc) with
    | Some filePath => unTrackOpenedFile filePath
    | None => ret tt
    end.

  (** ** Construction *)

Definition initial (options : FileTrackerOptions) : State :=
    let incl := if truthy (Some (opt_includeGlobPattern options))
                then opt_includeGlobPattern options else "**/*" in
    let loaded := negb (truthy (opt_startPath options)) in
    {| includeGlobPattern := incl;
       excludeGlobPattern := opt_excludeGlobPattern options;
       updateImmediately := default false (opt_updateImmediately options);
       startPath := opt_startPath options;
       tmap := [];
       ignoredFilePaths := ∅;
       allFresh := loaded;
       startPathLoaded := loaded;
       heap := []; promises := []; pending_io := []; tasks := []; trace := [] |}.

  (** [inl msg] is the thrown [Error(msg)]; [inr s] the constructed tracker. *)
Definition constructor (options : FileTrackerOptions) : string + State :=
    if truthy (Some (opt_includeGlobPattern options))
       && path_isAbsolute (opt_includeGlobPattern options)
    then inl ("includeGlobPattern parameter " +:+ dquote +:+ opt_includeGlobPattern options
              +:+ dquote +:+ " should not be an absolute path pattern")
    else
      let s := initial options in
      inr (if truthy (startPath s) && updateImmediately s
           then exec_M loadStartPath s else s).

  (** * The run-time system *)

  (** A suspended task may resume once every promise it awaits is settled. *)
Definition settled (s : State) (p : pid) : bool :=
    match promise_at s p with Settled _ => true | Pending => false end.

Definition ready (s : State) (t : task) : bool := forallb (settled s) (awaits t).

Definition value_at (s : State) (p : pid) : value :=
    match promise_at s p with Settled v => v | Pending => VUndefined end.

  (** The value an [await] of a single promise evaluates to. *)
Definition awaited (s : State) (t : task) : value :=
    match awaits t with
    | p :: _ => value_at s p
    | [] => VUndefined
    end.

Definition resume (t : task) : M unit :=
    v <- gets (λ s, awaited s t) ;;
    match kont t with
    | KLoadDocument filePath langId docUri =>
        loadDocument_resume (self t) filePath langId docUri v
    | KUpdateLoaded filePath item => getUpdatePromise_loaded (self t) filePath item v
    | KUpdateHooked filePath hasDocumentBefore =>
        getUpdatePromise_hooked (self t) filePath hasDocumentBefore
    | KDoUpdate item => doUpdate_resume (self t) item
    | KBeFreshStart => beFresh_updates (self t)
    | KBeFreshAll =>
        rs <- gets (λ s, map (promise_at s) (awaits t)) ;;
        beFresh_resume (self t) rs
    | KLoadStartPath => loadStartPath_resume (self t)
    | KTrackPathStat fileOrFolderPath => trackPath_resume (self t) fileOrFolderPath v
    | KTrackPathDone => settle (self t) VUndefined
    | KTrackFolder => trackFolder_resume (self t) v
    | KGetFilePaths => getFilePathsInFolder_resume (self t) v
    | KWatchedStat fileOrFolderPath rest =>
        watched_changed fileOrFolderPath v ;;
        onWatchedPathChanged_loop (self t) rest
    end.

  (** What the environment may answer to a request. *)
Definition answers (rq : request) (v : value) : bool :=
    match rq, v with
    | RReadText _, VText _ => true
    | RGetStat _, VStat _ => true
    | RGlob _ _, VPaths _ => true
    | ROnUpdate _ _, VUndefined => true
    | _, _ => false
    end.

Inductive call :=
  | DidChangeContent (doc : TextDocument)
  | DidSave (doc : TextDocument)
  | DidClose (doc : TextDocument)
  | DidChangeWatchedFiles (changes : list FileEvent)
  | CallIgnore (filePath : string)
  | CallNotIgnore (filePath : string)
  | CallUnTrackPath (deletedPath : string)
  | CallBeFresh.

Definition perform (c : call) : M unit :=
    match c with
    | DidChangeContent doc => onDocumentOpenOrContentChanged doc
    | DidSave doc => onDocumentSaved doc
    | DidClose doc => onDocumentClosed doc
    | DidChangeWatchedFiles changes => _ <- onWatchedPathChanged changes ;; ret tt
    | CallIgnore filePath => ignore filePath
    | CallNotIgnore filePath => notIgnore filePath
    | CallUnTrackPath deletedPath => unTrackPath deletedPath
    | CallBeFresh => _ <- beFresh ;; ret tt
    end.

Inductive action :=
  | ACall (c : call)                 (* an event handler or a public method runs *)
  | ARun (i : nat)                   (* the i-th suspended task resumes *)
  | AIo (i : nat) (v : value)        (* the environment answers the i-th pending request *).

Definition exec (a : action) (s : State) : option State :=
    match a with
    | ACall c => Some (exec_M (perform c) s)
    | ARun i =>
        match tasks s !! i with
        | Some t =>
            if ready s t
            then Some (exec_M (resume t) (set_tasks (delete i) s))
            else None
        | None => None
        end
    | AIo i v =>
        match pending_io s !! i with
        | Some (p, rq) =>
            if answers rq v
            then Some (exec_M (settle p v) (set_pending_io (delete i) s))
            else None
        | None => None
        end
    end.

Fixpoint run (acts : list action) (s : State) : option State :=
    match acts with
    | [] => Some s
    | a :: acts' =>
        match exec a s with
        | Some s' => run acts' s'
        | None => None
        end
    end.

  (** Steps of the run-time system alone: no new event, no new call. *)
Definition internal (a : action) : bool :=
    match a with ACall _ => false | _ => true end.

  (** *** A scheduler

      The environment answers each request by a function of the request
      ([env]); the scheduler lets it answer the oldest pending request, and
      when none is pending resumes the first task that may resume. *)
Definition env : Type := request → value.

Definition env_ok (e : env) : Prop := ∀ rq, answers rq (e rq) = true.

Fixpoint first_ready (s : State) (ts : list task) (i : nat) : option nat :=
    match ts with
    | [] => None
    | t :: ts' => if ready s t then Some i else first_ready s ts' (S i)
    end.

Definition next_action (e : env) (s : State) : option action :=
    match pending_io s with
    | (_, rq) :: _ => Some (AIo 0 (e rq))
    | [] => ARun <$> first_ready s (tasks s) 0
    end.

Fixpoint drain (fuel : nat) (e : env) (s : State) : State :=
    match fuel with
    | O => s
    | S n =>
        match next_action e s with
        | Some a =>
            match exec a s with
            | Some s' => drain n e s'
            | None => s
            end
        | None => s
        end
    end.

  (** The steps a suspended task still needs, itself included: the call of
      getUpdatePromise suspended on the load has the hook to call and to
      await afterwards. *)
Definition weight_kont (k : cont) : nat :=
    match k with
    | KUpdateLoaded _ _ => 3
    | _ => 1
    end.

Definition weight (s : State) : nat :=
    (sum_list_with (λ t, weight_kont (kont t)) (tasks s) + length (pending_io s))%nat.

End FileTracker.

Arguments updatedCount : simpl never.

(** * A concrete platform

    POSIX readings of the external functions, used to run the model on
    concrete inputs.  [normalize] is the identity (as it is on normalised
    paths) and [minimatch] understands the patterns [**/*], [**/*<suffix>]
    and literal paths. *)
Module Posix.
Definition isAbsolute (p : string) : bool :=
    match p with
    | String c _ => Ascii.eqb c "/"%char
    | EmptyString => false
    end.

Fixpoint contains (c : ascii) (s : string) : bool :=
    match s with
    | EmptyString => false
    | String c' s' => Ascii.eqb c c' || contains c s'
    end.

  (** The text after the last ["/"]. *)
Fixpoint basename (p : string) : string :=
    match p with
    | EmptyString => EmptyString
    | String c p' =>
        if contains "/"%char p' then basename p'
        else if Ascii.eqb c "/"%char then p' else p
    end.

  (** The text from the last ["."] of [s], if there is one after position 0. *)
Fixpoint from_last_dot (s : string) : string :=
    match s with
    | EmptyString => EmptyString
    | String c s' =>
        if contains "."%char s' then from_last_dot s'
        else if Ascii.eqb c "."%char then s else EmptyString
    end.

Definition extname (p : string) : string :=
    match basename p with
    | EmptyString => EmptyString
    | String _ rest => from_last_dot rest
    end.

Definition lower (c : ascii) : ascii :=
    let n := nat_of_ascii c in
    if ((65 <=? n) && (n <=? 90))%nat then ascii_of_nat (n + 32) else c.

Fixpoint toLower (s : string) : string :=
    match s with
    | EmptyString => EmptyString
    | String c s' => String (lower c) (toLower s')
    end.

Definition fileUri (p : string) : string := "file://" +:+ p.

Definition toFilePath (u : string) : option string :=
    if String.prefix "file://" u
    then Some (String.substring 7 (String.length u - 7) u)
    else None.

Fixpoint ends_with (suffix s : string) : bool :=
    String.eqb suffix s ||
    match s with
    | EmptyString => false
    | String _ s' => ends_with suffix s'
    end.

Definition glob_match (pattern path : string) : bool :=
    if String.prefix "**/*" pattern
    then ends_with (String.substring 4 (String.length pattern - 4) pattern) path
    else String.eqb pattern path.

#[export] Instance externals : Externals := {|
    path_isAbsolute := isAbsolute;
    path_extname := extname;
    path_normalize := λ p, p;
    toLowerCase := toLower;
    Uri_file := fileUri;
    uriToFilePath := toFilePath;
    minimatch := glob_match
  |}.
End Posix.

(** * Properties *)

(** ** The [Map] *)

Module JsMapFacts.
  Import JsMap.

Lemma eqb_eq_iff (a b : string) : String.eqb a b = true ↔ a = b.
  Proof. apply String.eqb_eq. Qed.

Lemma get_None {V} k (m : t V) : get k m = None ↔ k ∉ keys m.
  Proof.
    induction m as [|[k' v] m IH]; simpl.
    - split; [intros _; apply not_elem_of_nil | done].
    - destruct (String.eqb k' k) eqn:E.
      + apply String.eqb_eq in E as ->. split; [done|]. intros Hn.
        exfalso. apply Hn. left.
      + apply String.eqb_neq in E. rewrite IH. unfold keys. simpl.
        rewrite not_elem_of_cons. intuition congruence.
  Qed.

Lemma get_Some_elem {V} k v (m : t V) : get k m = Some v → (k, v) ∈ m.
  Proof.
    induction m as [|[k' v'] m IH]; simpl; [done|].
    destruct (String.eqb k' k) eqn:E.
    - apply String.eqb_eq in E as ->. intros [= ->]. left.
    - intros Hg. right. auto.
  Qed.

Lemma elem_get {V} k v (m : t V) : wf m → (k, v) ∈ m → get k m = Some v.
  Proof.
    unfold wf, keys. induction m as [|[k' v'] m IH]; simpl.
    - intros _ Hin. by apply elem_of_nil in Hin.
    - intros Hnd Hin. apply NoDup_cons in Hnd as [Hk Hnd].
      apply elem_of_cons in Hin as [[= -> ->]|Hin].
      + by rewrite String.eqb_refl.
      + destruct (String.eqb k' k) eqn:E; [|by auto].
        apply String.eqb_eq in E as ->. exfalso. apply Hk.
        apply list_elem_of_fmap. by exists (k, v).
  Qed.

Lemma get_app_notin {V} k (m1 m2 : t V) :
    k ∉ keys m1 → get k (m1 ++ m2) = get k m2.
  Proof.
    induction m1 as [|[k' v'] m1 IH]; simpl; [done|].
    unfold keys. simpl. rewrite not_elem_of_cons. intros [Hne Hn].
    destruct (String.eqb k' k) eqn:E; [|by auto].
    apply String.eqb_eq in E. congruence.
  Qed.

Lemma delete_notin {V} k (m : t V) : k ∉ keys m → delete k m = m.
  Proof.
    induction m as [|[k' v'] m IH]; simpl; [done|].
    unfold keys. simpl. rewrite not_elem_of_cons. intros [Hne Hn].
    destruct (String.eqb k' k) eqn:E.
    - apply String.eqb_eq in E. congruence.
    - f_equal. auto.
  Qed.

Lemma delete_app {V} k (m1 m2 : t V) : delete k (m1 ++ m2) = delete k m1 ++ delete k m2.
  Proof.
    induction m1 as [|[k' v'] m1 IH]; simpl; [done|].
    destruct (String.eqb k' k); simpl; by rewrite ?IH.
  Qed.

Lemma get_set_eq {V} k v (m : t V) : get k (set k v m) = Some v.
  Proof.
    induction m as [|[k' v'] m IH]; simpl.
    - by rewrite String.eqb_refl.
    - destruct (String.eqb k' k) eqn:E; simpl; by rewrite E.
  Qed.

Lemma get_set_ne {V} k k' v (m : t V) : k ≠ k' → get k' (set k v m) = get k' m.
  Proof.
    intros Hne. induction m as [|[k0 v0] m IH]; simpl.
    - destruct (String.eqb k k') eqn:E; [|done].
      apply String.eqb_eq in E. congruence.
    - destruct (String.eqb k0 k) eqn:E; simpl; [|by rewrite IH].
      apply String.eqb_eq in E as ->. destruct (String.eqb k k') eqn:E'; [|done].
      apply String.eqb_eq in E'. congruence.
  Qed.

Lemma set_fresh_key {V} k v (m : t V) : get k m = None → set k v m = m ++ [(k, v)].
  Proof.
    induction m as [|[k' v'] m IH]; simpl; [done|].
    destruct (String.eqb k' k); [done|]. intros Hg. by rewrite IH.
  Qed.

Lemma keys_set {V} k v (m : t V) :
    keys (set k v m) = if has k m then keys m else keys m ++ [k].
  Proof.
    unfold has, keys. induction m as [|[k' v'] m IH]; csimpl; [done|].
    destruct (String.eqb k' k) eqn:E; csimpl; [done|].
    rewrite IH. by destruct (get k m).
  Qed.

Lemma wf_set {V} k v (m : t V) : wf m → wf (set k v m).
  Proof.
    unfold wf. rewrite keys_set. unfold has.
    destruct (get k m) eqn:E; [done|]. intros Hnd.
    apply get_None in E. apply NoDup_app. split_and!; [done| |apply NoDup_singleton].
    intros x Hx Hx'. apply list_elem_of_singleton in Hx' as ->. done.
  Qed.

Lemma filter_none {A} (P : A → Prop) `{!∀ x, Decision (P x)} (l : list A) :
    (∀ x, x ∈ l → ¬ P x) → filter P l = [].
  Proof.
    induction l as [|x l IH]; [done|]. intros Hall.
    rewrite filter_cons_False by (apply Hall; left).
    apply IH. intros y Hy. apply Hall. by right.
  Qed.

  (** In a well-formed map a key names one entry. *)
Lemma count_key {V} k v (m : t V) :
    wf m → get k m = Some v →
    length (filter (λ kv, kv.1 = k) m) = 1%nat.
  Proof.
    unfold wf, keys. induction m as [|[k' v'] m IH]; [done|].
    rewrite fmap_cons. intros Hnd. apply NoDup_cons in Hnd as [Hk Hnd].
    cbn [get fst]. destruct (String.eqb k' k) eqn:E.
    - apply String.eqb_eq in E as ->. intros _.
      rewrite filter_cons_True by done. cbn [length]. f_equal.
      apply length_zero_iff_nil, filter_none.
      intros [k0 v0] Hin ?. simpl in *. subst. apply Hk.
      apply list_elem_of_fmap. by exists (k, v0).
    - apply String.eqb_neq in E. intros Hg.
      rewrite filter_cons_False by done. auto.
  Qed.
End JsMapFacts.

(** Unfold the monad and the primitive operations. *)
Ltac munfold :=
  unfold exec_M, eval_M, bind, ret, gets, modify, read_item, update_item, new_item,
    emit, console_log, new_promise, settle, spawn, request_io in *.

(** ** Synchronous handlers *)

Section Synchronous.
  Context `{Externals}.

Lemma item_at_lookup s r it : heap s !! r = Some it → item_at s r = it.
  Proof. unfold item_at. by intros ->. Qed.

Lemma alter_known {A} (f : A → A) (l : list A) i x :
    l !! i = Some x → alter f i l = <[i := f x]> l.
  Proof.
    intros Hl. apply list_eq. intros j. destruct (decide (i = j)) as [<-|Hne].
    - rewrite list_lookup_alter_eq, Hl, list_lookup_insert_eq; [done|].
      by eapply lookup_lt_Some.
    - by rewrite list_lookup_alter_ne, list_lookup_insert_ne.
  Qed.

  (** *** Closing a buffer *)

  (** C8. A buffer-closed event on a tracked path detaches the document,
      sets the version to 1 and clears the opened flag of that record; its
      fresh flag and pending reload, every other record, the map, the
      ignored set, allFresh and the run-time store stay as they were.  The
      only effect besides is the log line. *)
Theorem onDocumentClosed_detaches s doc filePath item it :
    uriToFilePath (uri doc) = Some filePath →
    JsMap.get filePath (tmap s) = Some item →
    heap s !! item = Some it →
    let s' := exec_M (perform (DidClose doc)) s in
    heap s' = <[item := {| document := None; version := 1; opened := false;
                           fresh := fresh it; updatePromise := updatePromise it |}]> (heap s)
    ∧ tmap s' = tmap s
    ∧ ignoredFilePaths s' = ignoredFilePaths s
    ∧ allFresh s' = allFresh s
    ∧ startPathLoaded s' = startPathLoaded s
    ∧ promises s' = promises s
    ∧ pending_io s' = pending_io s
    ∧ tasks s' = tasks s
    ∧ trace s' = trace s ++ [Log (filePath +:+ " closed")].
  Proof.
    intros Hu Hg Hh. cbn [perform]. unfold onDocumentClosed. rewrite Hu.
    unfold unTrackOpenedFile. munfold. cbn. rewrite Hg. cbn.
    split_and!; try done.
    rewrite !list_alter_alter_eq. by rewrite (alter_known _ _ _ _ Hh).
  Qed.


  (** *** Opening or editing a buffer *)

  (** Whether [trackOpenedFile] expires the record: the buffer is newer and
      the record was fresh. *)
Definition expires (doc : TextDocument) (it : TrackMapItem) : bool :=
    bool_decide (doc_version doc > version it) && fresh it.

  (** C5, as the code has it.  On a tracked path the buffer is attached, the
      version taken from the buffer and the record marked open whatever the
      versions are.  Only the expiry depends on them: when the buffer is
      newer and the record was fresh, the record becomes stale, allFresh is
      cleared and onExpired fires; otherwise freshness, allFresh and the
      trace are untouched.  No reload is started in either case, under
      either policy. *)
Theorem trackOpenedFile_existing s doc filePath item it :
    JsMap.get filePath (tmap s) = Some item →
    heap s !! item = Some it →
    let s' := exec_M (trackOpenedFile filePath doc) s in
    heap s' = <[item := {| document := Some doc; version := doc_version doc;
                           opened := true;
                           fresh := if expires doc it then false else fresh it;
                           updatePromise := updatePromise it |}]> (heap s)
    ∧ allFresh s' = (if expires doc it then false else allFresh s)
    ∧ trace s' = trace s ++
        (if expires doc it
         then [Log (filePath +:+ " expired"); OnExpired filePath item]
         else [])
    ∧ tmap s' = tmap s
    ∧ ignoredFilePaths s' = ignoredFilePaths s
    ∧ promises s' = promises s
    ∧ pending_io s' = pending_io s
    ∧ tasks s' = tasks s.
  Proof.
    intros Hg Hh. unfold trackOpenedFile, handleExpired, expires. munfold. cbn.
    rewrite Hg. cbn. unfold item_at. cbn.
    rewrite !list_lookup_alter_eq, Hh. cbn.
    destruct (bool_decide (doc_version doc > version it)), (fresh it) eqn:Hf; cbn;
      rewrite ?list_lookup_alter_eq, ?Hh; cbn; rewrite ?app_nil_r;
      split_and!; try done; try (by rewrite <- app_assoc);
      rewrite !list_alter_alter_eq, (alter_known _ _ _ _ Hh);
      unfold with_fresh, with_opened, with_version, with_document; cbn;
      by rewrite ?Hf.
  Qed.

  (** *** Reload requests leave the registry alone *)

Definition same_registry (s s' : State) : Prop :=
    tmap s' = tmap s
    ∧ ignoredFilePaths s' = ignoredFilePaths s
    ∧ allFresh s' = allFresh s
    ∧ startPathLoaded s' = startPathLoaded s
    ∧ updateImmediately s' = updateImmediately s
    ∧ includeGlobPattern s' = includeGlobPattern s
    ∧ excludeGlobPattern s' = excludeGlobPattern s
    ∧ startPath s' = startPath s.

Lemma same_registry_refl s : same_registry s s.
  Proof. by unfold same_registry. Qed.

Lemma same_registry_trans s1 s2 s3 :
    same_registry s1 s2 → same_registry s2 s3 → same_registry s1 s3.
  Proof. unfold same_registry. intuition congruence. Qed.

Lemma doUpdate_registry filePath item s :
    same_registry s (doUpdate filePath item s).2.
  Proof.
    unfold same_registry, doUpdate, getUpdatePromise, getUpdatePromise_fresh,
      loadDocumentFromFilePath, onUpdate, readText.
    munfold. cbn.
    destruct (bool_decide (filePath ∈ ignoredFilePaths s)); cbn; [done|].
    destruct (updatePromise (item_at _ item)); cbn; [done|].
    destruct (hasDocument (item_at _ item)); cbn; done.
  Qed.

  (** *** Tracking a path twice *)

  (** C4. After [trackFile] the map holds exactly one entry for the path,
      and tracking the path again changes nothing at all: same map, same
      records, same store, no event (hence no hook).  In particular, when
      the path is already tracked the first call is already that no-op. *)
Theorem trackFile_twice s filePath :
    JsMap.wf (tmap s) →
    let s1 := exec_M (trackFile filePath) s in
    let s2 := exec_M (trackFile filePath) s1 in
    s2 = s1
    ∧ length (filter (λ kv, kv.1 = filePath) (tmap s2)) = 1%nat
    ∧ (∀ item, JsMap.get filePath (tmap s) = Some item → s1 = s).
  Proof.
    intros Hwf.
    assert (Hnoop : ∀ s0 item, JsMap.get filePath (tmap s0) = Some item →
                      exec_M (trackFile filePath) s0 = s0).
    { intros s0 item Hg. unfold trackFile. munfold. cbn. by rewrite Hg. }
    assert (Hs1 : ∃ item, JsMap.get filePath (tmap (exec_M (trackFile filePath) s)) = Some item
                          ∧ JsMap.wf (tmap (exec_M (trackFile filePath) s))).
    { destruct (JsMap.get filePath (tmap s)) as [item|] eqn:Hg.
      - exists item. by rewrite (Hnoop s item Hg).
      - exists (length (heap s)). unfold trackFile, handleTrackFollowed.
        munfold. cbn. rewrite Hg. cbn.
        destruct (updateImmediately s); cbn.
        + match goal with
          | |- context [doUpdate ?p ?r ?s0] =>
              destruct (doUpdate_registry p r s0) as (-> & _)
          end.
          cbn. split; [apply JsMapFacts.get_set_eq | by apply JsMapFacts.wf_set].
        + split; [apply JsMapFacts.get_set_eq | by apply JsMapFacts.wf_set]. }
    destruct Hs1 as (item & Hg1 & Hwf1). cbn zeta.
    rewrite (Hnoop _ item Hg1). split_and!; [done| |by eauto].
    by eapply JsMapFacts.count_key.
  Qed.

  (** *** Reload requests for an ignored path *)

  (** C3. A reload request for a path in the ignored set returns at once
      with [false]: its promise is already settled, no task is suspended,
      nothing is asked of the environment (no disk read), the trace gets no
      event (no onUpdate hook), and every record, the one of the path
      included, is as before.  The path itself stays ignored.  The two
      triggers come down to this request: an expiry of a closed record under
      the push policy is that request and nothing else, and beFresh, at a
      stale record of an ignored path, makes that request and goes on with
      the other records. *)
Theorem doUpdate_ignored s filePath item :
    filePath ∈ ignoredFilePaths s →
    let s' := exec_M (doUpdate filePath item) s in
    promise_at s' (eval_M (doUpdate filePath item) s) = Settled (VBool false)
    ∧ heap s' = heap s
    ∧ trace s' = trace s
    ∧ pending_io s' = pending_io s
    ∧ tasks s' = tasks s
    ∧ (∀ p, (p < length (promises s))%nat → promise_at s' p = promise_at s p)
    ∧ same_registry s s'
    ∧ (updateImmediately s = true → opened (item_at s item) = false →
       exec_M (handleExpired filePath item) s = s')
    ∧ (∀ rest, fresh (item_at s item) = false →
         exec_M (beFresh_loop ((filePath, item) :: rest)) s
         = exec_M (beFresh_loop rest) s').
  Proof.
    intros Hin s'.
    assert (Hmain :
      promise_at s' (eval_M (doUpdate filePath item) s) = Settled (VBool false)
      ∧ heap s' = heap s
      ∧ trace s' = trace s
      ∧ pending_io s' = pending_io s
      ∧ tasks s' = tasks s
      ∧ (∀ p, (p < length (promises s))%nat → promise_at s' p = promise_at s p)
      ∧ same_registry s s').
    { subst s'. unfold doUpdate. munfold. cbn.
      rewrite bool_decide_eq_true_2 by done. cbn.
      unfold promise_at, same_registry. cbn.
      split_and!; try done.
      - rewrite list_lookup_insert_eq; [done|]. rewrite length_app. simpl. lia.
      - intros p Hp. rewrite list_lookup_insert_ne by lia.
        by rewrite lookup_app_l. }
    destruct Hmain as (H1 & H2 & H3 & H4 & H5 & H6 & H7).
    split_and!; [exact H1|exact H2|exact H3|exact H4|exact H5|exact H6|exact H7| |].
    - intros Hupd Hop. unfold handleExpired, exec_M, bind, read_item, gets.
      cbn [fst snd]. by rewrite Hop, Hupd.
    - intros rest Hf. cbn [beFresh_loop].
      unfold exec_M, bind at 1, read_item, gets. cbn [fst snd]. by rewrite Hf.
  Qed.

  (** *** Construction *)

  (** C9. Construction throws exactly when the include pattern is an
      absolute path pattern, and then yields no tracker; with any other
      include pattern it yields a tracker.  [path.isAbsolute] answers
      [false] on the empty string. *)
Theorem constructor_fails_fast options :
    path_isAbsolute EmptyString = false →
    (path_isAbsolute (opt_includeGlobPattern options) = true →
       ∃ msg, constructor options = inl msg)
    ∧ (path_isAbsolute (opt_includeGlobPattern options) = false →
       ∃ s, constructor options = inr s).
  Proof.
    intros Hempty. unfold constructor, truthy. split; intros Habs; rewrite Habs.
    - destruct (String.eqb (opt_includeGlobPattern options) EmptyString) eqn:E.
      + apply String.eqb_eq in E. rewrite E in Habs. congruence.
      + cbn. eauto.
    - rewrite andb_false_r. eauto.
  Qed.

  (** *** Untracking a deleted path *)

Definition same_store (s s' : State) : Prop :=
    heap s' = heap s ∧ promises s' = promises s
    ∧ pending_io s' = pending_io s ∧ tasks s' = tasks s.

  (** What the loop of [unTrackPath] prints and which hooks it calls. *)
Definition untrack_events (deletedPath : string) (m : JsMap.t ref) : list event :=
    flat_map (λ kv, if String.prefix deletedPath kv.1
                    then [Log (kv.1 +:+ " removed"); OnUnTrack kv.1 kv.2]
                    else []) m.

  (** The calls of the onUnTrack hook recorded in a trace. *)
Definition onUnTrack_calls (t : list event) : list (string * ref) :=
    omap (λ e, match e with OnUnTrack p r => Some (p, r) | _ => None end) t.

Lemma get_filter_prefix d p (m : JsMap.t ref) :
    JsMap.get p (filter (λ kv, String.prefix d kv.1 = false) m)
    = if String.prefix d p then None else JsMap.get p m.
  Proof.
    induction m as [|[k v] m IH]; [by destruct (String.prefix d p)|].
    destruct (String.prefix d k) eqn:Hk.
    - rewrite filter_cons_False by (simpl; congruence).
      rewrite IH. cbn [JsMap.get]. destruct (String.eqb k p) eqn:E; [|done].
      apply String.eqb_eq in E as ->. by rewrite Hk.
    - rewrite filter_cons_True by done. cbn [JsMap.get].
      destruct (String.eqb k p) eqn:E; [|done].
      apply String.eqb_eq in E as ->. by rewrite Hk.
  Qed.

Lemma filter_keys_prefix d (m : JsMap.t ref) :
    filter (λ k, String.prefix d k = true) m.*1
    = (filter (λ kv, String.prefix d kv.1 = true) m).*1.
  Proof.
    induction m as [|[k v] m IHm]; [done|]. rewrite fmap_cons. cbn [fst].
    destruct (String.prefix d k) eqn:Hk.
    - rewrite !filter_cons_True by done. rewrite fmap_cons. by rewrite IHm.
    - by rewrite !filter_cons_False by (simpl; rewrite Hk; discriminate).
  Qed.

Lemma onUnTrack_calls_untrack_events d (m : JsMap.t ref) :
    onUnTrack_calls (untrack_events d m) = filter (λ kv, String.prefix d kv.1 = true) m.
  Proof.
    unfold onUnTrack_calls, untrack_events.
    induction m as [|[k v] m IH]; [done|]. cbn [flat_map fst snd].
    rewrite omap_app, IH. destruct (String.prefix d k) eqn:Hk.
    - by rewrite filter_cons_True by done.
    - by rewrite filter_cons_False by (simpl; congruence).
  Qed.

Lemma exec_M_seq {A B} (m : M A) (k : M B) s :
    exec_M (m ;; k) s = exec_M k (exec_M m s).
  Proof. done. Qed.

Lemma unTrackPath_key_hit d k item s :
    String.prefix d k = true →
    JsMap.get k (tmap s) = Some item →
    exec_M (unTrackPath_key d k) s =
      set_trace (λ t, t ++ [OnUnTrack k item])
        (set_trace (λ t, t ++ [Log (k +:+ " removed")])
           (set_ignoredFilePaths (λ g, g ∖ {[k]})
              (set_tmap (JsMap.delete k) s))).
  Proof.
    intros Hp Hg. unfold unTrackPath_key. rewrite Hp. munfold. cbn. by rewrite Hg.
  Qed.

Lemma unTrackPath_key_miss d k s :
    String.prefix d k = false → exec_M (unTrackPath_key d k) s = s.
  Proof. intros Hp. unfold unTrackPath_key. by rewrite Hp. Qed.

Lemma unTrackPath_loop d es : ∀ pre s,
    tmap s = pre ++ es →
    JsMap.wf (pre ++ es) →
    let s' := exec_M (forM_ (JsMap.keys es) (unTrackPath_key d)) s in
    tmap s' = pre ++ filter (λ kv, String.prefix d kv.1 = false) es
    ∧ ignoredFilePaths s' =
        ignoredFilePaths s ∖
          list_to_set (filter (λ k, String.prefix d k = true) (JsMap.keys es))
    ∧ trace s' = trace s ++ untrack_events d es
    ∧ allFresh s' = allFresh s
    ∧ same_store s s'.
  Proof.
    induction es as [|[k v] es IH]; intros pre s Hm Hwf.
    - cbn. unfold same_store. rewrite !app_nil_r in *. split_and!; try done.
      by rewrite difference_empty_L.
    - unfold JsMap.keys. rewrite fmap_cons. cbn [forM_ fst]. cbn zeta.
      rewrite exec_M_seq.
      assert (Hk : (k ∉ JsMap.keys pre) ∧ (k ∉ JsMap.keys es)).
      { unfold JsMap.wf, JsMap.keys in Hwf. rewrite fmap_app, fmap_cons in Hwf.
        apply NoDup_app in Hwf as (_ & Hdisj & Hnd). apply NoDup_cons in Hnd as [Hk _].
        split; [|done]. intros Hin. apply (Hdisj _ Hin). left. }
      destruct Hk as [Hkpre Hkes].
      destruct (String.prefix d k) eqn:Hp.
      + rewrite (unTrackPath_key_hit d k v) by
          (try done; rewrite Hm, JsMapFacts.get_app_notin by done;
           cbn [JsMap.get]; by rewrite String.eqb_refl).
        match goal with
        | |- context [exec_M _ ?s0] =>
            destruct (IH pre s0) as (Ht & Hi & Htr & Haf & Hh & Hps & Hio & Hts)
        end.
        { cbn. rewrite Hm, JsMapFacts.delete_app. cbn [JsMap.delete].
          rewrite String.eqb_refl. by rewrite !JsMapFacts.delete_notin. }
        { unfold JsMap.wf, JsMap.keys in *. rewrite fmap_app, fmap_cons in Hwf.
          rewrite fmap_app. apply NoDup_app in Hwf as (Hn1 & Hdisj & Hnd).
          apply NoDup_cons in Hnd as [_ Hnd]. apply NoDup_app. split_and!; [done| |done].
          intros x Hx Hx'. apply (Hdisj _ Hx). by right. }
        unfold same_store. fold (JsMap.keys es). rewrite Ht, Hi, Htr, Haf, Hh, Hps, Hio, Hts.
        rewrite filter_cons_False by (simpl; congruence).
        rewrite filter_cons_True by done.
        unfold untrack_events. cbn [flat_map fst snd set_trace set_ignoredFilePaths
          set_tmap trace ignoredFilePaths allFresh heap promises pending_io tasks].
        rewrite Hp, <- !app_assoc.
        split_and!; try done.
        by rewrite list_to_set_cons, difference_difference_l_L.
      + rewrite unTrackPath_key_miss by done.
        destruct (IH (pre ++ [(k, v)]) s) as (Ht & Hi & Htr & Haf & Hst).
        { by rewrite <- app_assoc. }
        { by rewrite <- app_assoc. }
        fold (JsMap.keys es). rewrite Ht, Hi, Htr.
        rewrite filter_cons_True by done.
        rewrite filter_cons_False by congruence.
        unfold untrack_events. cbn [flat_map fst snd]. rewrite Hp.
        by rewrite <- app_assoc.
  Qed.

Lemma unTrackPath_spec s d :
    JsMap.wf (tmap s) →
    let s' := exec_M (unTrackPath d) s in
    tmap s' = filter (λ kv, String.prefix d kv.1 = false) (tmap s)
    ∧ ignoredFilePaths s' =
        ignoredFilePaths s ∖
          list_to_set (filter (λ k, String.prefix d k = true) (JsMap.keys (tmap s)))
    ∧ trace s' = trace s ++ untrack_events d (tmap s)
    ∧ allFresh s' = false
    ∧ same_store s s'.
  Proof.
    intros Hwf. destruct (unTrackPath_loop d (tmap s) [] s) as (Ht & Hi & Htr & _ & Hst);
      [done|done|].
    unfold unTrackPath, exec_M, bind, gets, modify in *. cbn in *.
    unfold same_store in *. cbn. by rewrite Ht, Hi, Htr.
  Qed.

  (** C6. A delete of [deletedPath] removes from the map every record whose
      key starts with [deletedPath] and no other; removes those keys from the
      ignored set; calls onUnTrack for the removed records, each once and in
      map order; clears allFresh; and leaves the records themselves and the
      run-time store alone. *)
Theorem unTrackPath_cascade s deletedPath :
    JsMap.wf (tmap s) →
    let s' := exec_M (perform (CallUnTrackPath deletedPath)) s in
    let removed := filter (λ kv, String.prefix deletedPath kv.1 = true) (tmap s) in
    (∀ p, JsMap.get p (tmap s') =
          if String.prefix deletedPath p then None else JsMap.get p (tmap s))
    ∧ (∀ p, p ∈ ignoredFilePaths s' ↔
            p ∈ ignoredFilePaths s ∧ p ∉ removed.*1)
    ∧ (∃ events, trace s' = trace s ++ events ∧ onUnTrack_calls events = removed)
    ∧ NoDup removed
    ∧ allFresh s' = false
    ∧ same_store s s'.
  Proof.
    intros Hwf. cbn [perform].
    destruct (unTrackPath_spec s deletedPath Hwf) as (Ht & Hi & Htr & Haf & Hst).
    cbn zeta. split_and!; try done.
    - intros p. rewrite Ht. apply get_filter_prefix.
    - intros p. rewrite Hi. unfold JsMap.keys. rewrite elem_of_difference.
      rewrite elem_of_list_to_set.
      by rewrite filter_keys_prefix.
    - exists (untrack_events deletedPath (tmap s)). split; [done|].
      apply onUnTrack_calls_untrack_events.
    - apply NoDup_filter. eapply NoDup_fmap_1. apply Hwf.
  Qed.

  (** C10. The test is the raw prefix test of [startsWith]: a tracked path
      is removed if and only if it starts with the deleted path as a string,
      whether or not the next character is a separator. *)
Theorem unTrackPath_raw_prefix s deletedPath p item :
    JsMap.wf (tmap s) →
    JsMap.get p (tmap s) = Some item →
    JsMap.get p (tmap (exec_M (unTrackPath deletedPath) s)) = None
    ↔ String.prefix deletedPath p = true.
  Proof.
    intros Hwf Hg. destruct (unTrackPath_spec s deletedPath Hwf) as (Ht & _).
    rewrite Ht, get_filter_prefix, Hg. by destruct (String.prefix deletedPath p).
  Qed.

End Synchronous.

(** ** The run-time store *)

(** An [exec] step, spelled out. *)
Section Steps.
  Context `{Externals}.

Lemma exec_run_inv i s s' :
    exec (ARun i) s = Some s' →
    ∃ t, tasks s !! i = Some t ∧ ready s t = true
         ∧ s' = exec_M (resume t) (set_tasks (delete i) s).
  Proof.
    cbn. destruct (tasks s !! i) as [t|]; [|done].
    destruct (ready s t) eqn:Hr; [|done]. intros [= <-]. eauto.
  Qed.

Lemma exec_io_inv i v s s' :
    exec (AIo i v) s = Some s' →
    ∃ p rq, pending_io s !! i = Some (p, rq) ∧ answers rq v = true
            ∧ s' = set_promises (λ ps, <[p := Settled v]> ps)
                     (set_pending_io (delete i) s).
  Proof.
    cbn. destruct (pending_io s !! i) as [[p rq]|]; [|done].
    destruct (answers rq v) eqn:Ha; [|done]. intros [= <-]. eauto.
  Qed.

  (** Invariants of the steps of the run-time system are invariants of its
      runs. *)
Lemma run_invariant (I : State → Prop) :
    (∀ a s s', internal a = true → exec a s = Some s' → I s → I s') →
    ∀ acts s s',
      forallb internal acts = true → run acts s = Some s' → I s → I s'.
  Proof.
    intros Hstep acts. induction acts as [|a acts IH]; intros s s' Hint Hrun HI.
    - cbn in Hrun. by injection Hrun as <-.
    - cbn in Hint, Hrun. apply andb_true_iff in Hint as [Ha Hint].
      destruct (exec a s) as [s1|] eqn:He; [|done]. eauto.
  Qed.

Lemma run_app acts1 acts2 s :
    run (acts1 ++ acts2) s = match run acts1 s with
                             | Some s1 => run acts2 s1
                             | None => None
                             end.
  Proof.
    revert s. induction acts1 as [|a acts1 IH]; intros s; cbn; [done|].
    destruct (exec a s); [apply IH|done].
  Qed.
End Steps.

(** *** Ownership of pending promises

    Every suspended task owns the promise of its async call, every
    unanswered request owns the promise returned to the caller; a promise
    has one owner and stays pending while it has one. *)

Definition owners (s : State) : list pid :=
  (self <$> tasks s) ++ (pending_io s).*1.

Definition pending (s : State) (p : pid) : Prop := promises s !! p = Some Pending.

Definition store_wf (s : State) : Prop :=
  NoDup (owners s) ∧ ∀ p, p ∈ owners s → pending s p.

(** A pending promise nobody owns yet: a task that has just been taken from
    the pool, or a call that has just been made. *)
Definition unowned (s : State) (p : pid) : Prop := (p ∉ owners s) ∧ pending s p.

Section Ownership.

Lemma pending_lt s p : pending s p → (p < length (promises s))%nat.
  Proof. unfold pending. apply lookup_lt_Some. Qed.

Lemma store_wf_take s i t :
    store_wf s → tasks s !! i = Some t →
    store_wf (set_tasks (delete i) s) ∧ unowned (set_tasks (delete i) s) (self t).
  Proof.
    intros [Hnd Hp] Hi. unfold store_wf, unowned, owners, pending in *. cbn.
    assert (Hperm : (self <$> tasks s) ++ (pending_io s).*1
                    ≡ₚ self t :: (self <$> delete i (tasks s)) ++ (pending_io s).*1).
    { rewrite (delete_Permutation (tasks s) i t Hi) at 1. by rewrite fmap_cons. }
    rewrite Hperm in Hnd. apply NoDup_cons in Hnd as [Hnotin Hnd].
    split_and!; try done.
    - intros p Hin. apply Hp. rewrite Hperm. by right.
    - apply Hp. rewrite Hperm. left.
  Qed.

Lemma store_wf_answer s i p rq :
    store_wf s → pending_io s !! i = Some (p, rq) →
    store_wf (set_pending_io (delete i) s) ∧ unowned (set_pending_io (delete i) s) p.
  Proof.
    intros [Hnd Hp] Hi. unfold store_wf, unowned, owners, pending in *. cbn.
    assert (Hperm : (self <$> tasks s) ++ (pending_io s).*1
                    ≡ₚ p :: (self <$> tasks s) ++ (delete i (pending_io s)).*1).
    { rewrite (delete_Permutation (pending_io s) i _ Hi) at 1. rewrite fmap_cons.
      cbn. by rewrite <- Permutation_middle. }
    rewrite Hperm in Hnd. apply NoDup_cons in Hnd as [Hnotin Hnd].
    split_and!; try done.
    - intros q Hin. apply Hp. rewrite Hperm. by right.
    - apply Hp. rewrite Hperm. left.
  Qed.

  (** The primitive operations. *)

Lemma store_wf_new_promise s :
    store_wf s → store_wf (set_promises (λ ps, ps ++ [Pending]) s).
  Proof.
    intros [Hnd Hp]. split; [done|]. intros p Hin. unfold pending. cbn.
    rewrite lookup_app_l; [by apply Hp|]. by apply pending_lt, Hp.
  Qed.

Lemma unowned_new_promise s :
    store_wf s → unowned (set_promises (λ ps, ps ++ [Pending]) s) (length (promises s)).
  Proof.
    intros [Hnd Hp]. split.
    - intros Hin. apply Hp, pending_lt in Hin. lia.
    - unfold pending. cbn. by rewrite list_lookup_middle.
  Qed.

Lemma unowned_new_promise_eq s p :
    store_wf s → p = length (promises s) →
    unowned (set_promises (λ ps, ps ++ [Pending]) s) p.
  Proof. intros Hwf ->. by apply unowned_new_promise. Qed.

Lemma unowned_keep_new_promise s p :
    unowned s p → unowned (set_promises (λ ps, ps ++ [Pending]) s) p.
  Proof.
    intros [Hn Hp]. split; [done|]. unfold pending in *. cbn.
    rewrite lookup_app_l; [done|]. by eapply lookup_lt_Some.
  Qed.

Lemma store_wf_settle s p v :
    store_wf s → unowned s p → store_wf (set_promises (λ ps, <[p := Settled v]> ps) s).
  Proof.
    intros [Hnd Hp] [Hn _]. split; [done|]. intros q Hin. unfold pending. cbn.
    rewrite list_lookup_insert_ne; [by apply Hp|]. intros ->. done.
  Qed.

Lemma unowned_keep_settle s p q v :
    unowned s p → p ≠ q → unowned (set_promises (λ ps, <[q := Settled v]> ps) s) p.
  Proof.
    intros [Hn Hp] Hne. split; [done|]. unfold pending in *. cbn.
    by rewrite list_lookup_insert_ne.
  Qed.

Lemma store_wf_spawn s aw p k :
    store_wf s → unowned s p →
    store_wf (set_tasks (λ ts, ts ++ [{| awaits := aw; self := p; kont := k |}]) s).
  Proof.
    intros [Hnd Hp] [Hn Hpp]. unfold store_wf, owners, pending in *. cbn.
    assert (Hperm : (self <$> (tasks s ++ [{| awaits := aw; self := p; kont := k |}]))
                      ++ (pending_io s).*1
                    ≡ₚ p :: (self <$> tasks s) ++ (pending_io s).*1).
    { rewrite fmap_app. cbn. rewrite <- app_assoc. cbn. by rewrite <- Permutation_middle. }
    split.
    - rewrite Hperm. by apply NoDup_cons.
    - intros q. rewrite Hperm. intros [->|Hin]%elem_of_cons; auto.
  Qed.

Lemma unowned_keep_spawn s aw p q k :
    unowned s p → p ≠ q →
    unowned (set_tasks (λ ts, ts ++ [{| awaits := aw; self := q; kont := k |}]) s) p.
  Proof.
    intros [Hn Hp] Hne. split; [|done]. unfold owners in *. cbn.
    rewrite fmap_app. cbn. rewrite !elem_of_app, list_elem_of_singleton.
    rewrite elem_of_app in Hn. tauto.
  Qed.

Lemma store_wf_request s p rq :
    store_wf s → unowned s p →
    store_wf (set_pending_io (λ io, io ++ [(p, rq)]) s).
  Proof.
    intros [Hnd Hp] [Hn Hpp]. unfold store_wf, owners, pending in *. cbn.
    assert (Hperm : (self <$> tasks s) ++ (pending_io s ++ [(p, rq)]).*1
                    ≡ₚ p :: (self <$> tasks s) ++ (pending_io s).*1).
    { rewrite fmap_app. cbn. rewrite app_assoc. by rewrite <- Permutation_cons_append. }
    split.
    - rewrite Hperm. by apply NoDup_cons.
    - intros q. rewrite Hperm. intros [->|Hin]%elem_of_cons; auto.
  Qed.

Lemma unowned_keep_request s p q rq :
    unowned s p → p ≠ q →
    unowned (set_pending_io (λ io, io ++ [(q, rq)]) s) p.
  Proof.
    intros [Hn Hp] Hne. split; [|done]. unfold owners in *. cbn.
    rewrite fmap_app. cbn. rewrite !elem_of_app, list_elem_of_singleton.
    rewrite elem_of_app in Hn. tauto.
  Qed.

Lemma store_wf_set_heap s f : store_wf s → store_wf (set_heap f s).
  Proof. done. Qed.
Lemma store_wf_set_trace s f : store_wf s → store_wf (set_trace f s).
  Proof. done. Qed.
Lemma store_wf_set_allFresh s b : store_wf s → store_wf (set_allFresh b s).
  Proof. done. Qed.
Lemma store_wf_set_tmap s f : store_wf s → store_wf (set_tmap f s).
  Proof. done. Qed.
Lemma unowned_set_heap s f p : unowned s p → unowned (set_heap f s) p.
  Proof. done. Qed.
Lemma unowned_set_trace s f p : unowned s p → unowned (set_trace f s) p.
  Proof. done. Qed.
Lemma unowned_set_allFresh s b p : unowned s p → unowned (set_allFresh b s) p.
  Proof. done. Qed.
Lemma unowned_set_tmap s f p : unowned s p → unowned (set_tmap f s) p.
  Proof. done. Qed.

End Ownership.

Ltac solve_pid_ne :=
  repeat match goal with
  | H : unowned ?s ?p |- _ =>
      lazymatch goal with
      | _ : (p < length (promises s))%nat |- _ => fail
      | _ => pose proof (pending_lt s p (proj2 H))
      end
  end;
  cbn; rewrite ?length_app; cbn; lia.

(** Discharge [store_wf] and [unowned] goals about a state written as a
    stack of primitive updates. *)
Ltac store_step :=
  lazymatch goal with
  | |- store_wf (set_heap _ _) => apply store_wf_set_heap
  | |- store_wf (set_trace _ _) => apply store_wf_set_trace
  | |- store_wf (set_allFresh _ _) => apply store_wf_set_allFresh
  | |- store_wf (set_tmap _ _) => apply store_wf_set_tmap
  | |- store_wf (set_promises (λ ps, ps ++ [Pending]) _) => apply store_wf_new_promise
  | |- store_wf (set_promises _ _) => apply store_wf_settle
  | |- store_wf (set_tasks _ _) => apply store_wf_spawn
  | |- store_wf (set_pending_io _ _) => apply store_wf_request
  | |- store_wf ?s => is_var s; assumption
  | |- unowned (set_heap _ _) _ => apply unowned_set_heap
  | |- unowned (set_trace _ _) _ => apply unowned_set_trace
  | |- unowned (set_allFresh _ _) _ => apply unowned_set_allFresh
  | |- unowned (set_tmap _ _) _ => apply unowned_set_tmap
  | |- unowned (set_promises (λ ps, ps ++ [Pending]) ?s0) ?p =>
      let n := eval cbn in (length (promises s0)) in
      let p' := eval cbn in p in
      first [ constr_eq n p'; apply unowned_new_promise_eq; [|reflexivity]
            | apply unowned_keep_new_promise ]
  | |- unowned (set_promises _ _) _ => apply unowned_keep_settle; [|solve_pid_ne]
  | |- unowned (set_tasks _ _) _ => apply unowned_keep_spawn; [|solve_pid_ne]
  | |- unowned (set_pending_io _ _) _ => apply unowned_keep_request; [|solve_pid_ne]
  | |- unowned ?s _ => is_var s; assumption
  end.
Ltac store_tac := repeat store_step.

(** *** Reloads in flight

    A caller of doUpdate suspended on an update promise finds the record
    fresh when it resumes: either the record is fresh already, or the call
    of getUpdatePromise that owns the promise has still to set the flag. *)

Definition loading (s : State) (P : pid) (r : ref) : Prop :=
  ∃ t path, t ∈ tasks s ∧ self t = P ∧ kont t = KUpdateLoaded path r
            ∧ (r < length (heap s))%nat.

Definition reload_due (s : State) (P : pid) (r : ref) : Prop :=
  fresh (item_at s r) = true ∨ loading s P r.

Definition reload_linked (s : State) : Prop :=
  (∀ t r, t ∈ tasks s → kont t = KDoUpdate r →
          ∃ P, awaits t = [P] ∧ reload_due s P r)
  ∧ (∀ r P, updatePromise (item_at s r) = Some P → reload_due s P r).

(** The continuations of the reload path: doUpdate, getUpdatePromise,
    loadDocumentFromFilePath and the barrier of beFresh. *)
Definition reload_kont (k : cont) : bool :=
  match k with
  | KLoadDocument _ _ _ | KUpdateLoaded _ _ | KUpdateHooked _ _
  | KDoUpdate _ | KBeFreshAll => true
  | _ => false
  end.

Definition reloads_only (s : State) : Prop :=
  ∀ t, t ∈ tasks s → reload_kont (kont t) = true.

(** A state in which every reload in flight will still deliver a fresh
    record to whoever waits for it. *)
Definition coherent (s : State) : Prop :=
  store_wf s ∧ reload_linked s ∧ reloads_only s.

(** No reload in flight, nothing suspended. *)
Definition quiescent (s : State) : Prop :=
  tasks s = [] ∧ pending_io s = []
  ∧ ∀ it, it ∈ heap s → updatePromise it = None.

(** References held by the map point into the heap. *)
Definition registry_refs (s : State) : Prop :=
  ∀ p r, (p, r) ∈ tmap s → (r < length (heap s))%nat.

(** Internal steps never clear a fresh flag. *)
Definition fresh_le (s s' : State) : Prop :=
  ∀ r, fresh (item_at s r) = true → fresh (item_at s' r) = true.

Section Items.

Lemma item_at_alter s f r r' :
    item_at (set_heap (alter f r) s) r' =
      if decide (r = r')
      then (if decide (r < length (heap s))%nat then f (item_at s r) else blank_item)
      else item_at s r'.
  Proof.
    unfold item_at. cbn. rewrite list_lookup_alter.
    destruct (decide (r = r')) as [<-|]; [|done].
    destruct (decide (r < length (heap s))%nat) as [Hlt|Hge].
    - apply lookup_lt_is_Some in Hlt as [it ->]. done.
    - rewrite lookup_ge_None_2 by lia. done.
  Qed.

Lemma item_at_set_trace s f r : item_at (set_trace f s) r = item_at s r.
  Proof. done. Qed.
Lemma item_at_set_tasks s f r : item_at (set_tasks f s) r = item_at s r.
  Proof. done. Qed.
Lemma item_at_set_promises s f r : item_at (set_promises f s) r = item_at s r.
  Proof. done. Qed.
Lemma item_at_set_pending_io s f r : item_at (set_pending_io f s) r = item_at s r.
  Proof. done. Qed.
Lemma item_at_set_allFresh s b r : item_at (set_allFresh b s) r = item_at s r.
  Proof. done. Qed.
Lemma item_at_set_tmap s f r : item_at (set_tmap f s) r = item_at s r.
  Proof. done. Qed.

  (** An update that keeps the fresh flag keeps it at every reference. *)
Lemma fresh_at_alter_keep s f r r' :
    (∀ it, fresh (f it) = fresh it) →
    fresh (item_at (set_heap (alter f r) s) r') = fresh (item_at s r').
  Proof.
    intros Hf. rewrite item_at_alter. destruct (decide (r = r')) as [<-|]; [|done].
    destruct (decide _) as [|Hge]; [done|].
    unfold item_at. by rewrite lookup_ge_None_2 by lia.
  Qed.

(** A field that an update keeps is kept at every reference. *)
Lemma field_at_alter_keep {A} (g : TrackMapItem → A) s f r r' :
  (∀ it, g (f it) = g it) →
  g (item_at (set_heap (alter f r) s) r') = g (item_at s r').
Proof.
  intros Hf. rewrite item_at_alter. destruct (decide (r = r')) as [<-|]; [|done].
  destruct (decide _) as [|Hge]; [done|].
  unfold item_at. by rewrite lookup_ge_None_2 by lia.
Qed.

Lemma updatePromise_at_alter_keep s f r r' :
    (∀ it, updatePromise (f it) = updatePromise it) →
    updatePromise (item_at (set_heap (alter f r) s) r') = updatePromise (item_at s r').
  Proof.
    intros Hf. rewrite item_at_alter. destruct (decide (r = r')) as [<-|]; [|done].
    destruct (decide _) as [|Hge]; [done|].
    unfold item_at. by rewrite lookup_ge_None_2 by lia.
  Qed.

Lemma fresh_le_refl s : fresh_le s s.
  Proof. by intros r. Qed.

Lemma fresh_le_trans s1 s2 s3 : fresh_le s1 s2 → fresh_le s2 s3 → fresh_le s1 s3.
  Proof. intros H1 H2 r Hr. auto. Qed.

Lemma fresh_le_alter s f r :
    (∀ it, fresh it = true → fresh (f it) = true) →
    fresh_le s (set_heap (alter f r) s).
  Proof.
    intros Hf r' Hr. rewrite item_at_alter. destruct (decide (r = r')) as [<-|]; [|done].
    destruct (decide _) as [|Hge]; [auto|].
    unfold item_at in Hr. by rewrite lookup_ge_None_2 in Hr by lia.
  Qed.

Lemma fresh_le_set_heap s s' f r :
    fresh_le s s' → (∀ it, fresh it = true → fresh (f it) = true) →
    fresh_le s (set_heap (alter f r) s').
  Proof. intros Hle Hf. eapply fresh_le_trans; [done|]. by apply fresh_le_alter. Qed.
Lemma fresh_le_set_trace s s' f : fresh_le s s' → fresh_le s (set_trace f s').
  Proof. done. Qed.
Lemma fresh_le_set_tasks s s' f : fresh_le s s' → fresh_le s (set_tasks f s').
  Proof. done. Qed.
Lemma fresh_le_set_promises s s' f : fresh_le s s' → fresh_le s (set_promises f s').
  Proof. done. Qed.
Lemma fresh_le_set_pending_io s s' f : fresh_le s s' → fresh_le s (set_pending_io f s').
  Proof. done. Qed.
Lemma fresh_le_set_allFresh s s' b : fresh_le s s' → fresh_le s (set_allFresh b s').
  Proof. done. Qed.

Lemma quiescent_coherent s : quiescent s → coherent s.
  Proof.
    intros (Ht & Hio & Hup). unfold coherent, store_wf, reload_linked, reloads_only, owners.
    rewrite Ht, Hio. split_and!.
    - apply NoDup_nil_2.
    - intros p Hp. by apply elem_of_nil in Hp.
    - intros t r Hin. by apply elem_of_nil in Hin.
    - intros r P. unfold item_at. destruct (heap s !! r) as [it|] eqn:Hl; cbn; [|done].
      rewrite (Hup it); [done|]. by eapply list_elem_of_lookup_2.
    - intros t Hin. by apply elem_of_nil in Hin.
  Qed.

End Items.

Ltac items_simpl :=
  repeat first
    [ rewrite item_at_set_trace | rewrite item_at_set_tasks
    | rewrite item_at_set_promises | rewrite item_at_set_pending_io
    | rewrite item_at_set_allFresh | rewrite item_at_set_tmap ].
Tactic Notation "items_simpl" "in" hyp(H) :=
  repeat first
    [ rewrite item_at_set_trace in H | rewrite item_at_set_tasks in H
    | rewrite item_at_set_promises in H | rewrite item_at_set_pending_io in H
    | rewrite item_at_set_allFresh in H | rewrite item_at_set_tmap in H ].

(** Prove [fresh_le s s'] for [s'] a stack of primitive updates of [s]. *)
Ltac fresh_le_tac :=
  repeat lazymatch goal with
  | |- fresh_le _ (set_heap (alter _ _) _) => apply fresh_le_set_heap; [|done]
  | |- fresh_le _ (set_trace _ _) => apply fresh_le_set_trace
  | |- fresh_le _ (set_tasks _ _) => apply fresh_le_set_tasks
  | |- fresh_le _ (set_promises _ _) => apply fresh_le_set_promises
  | |- fresh_le _ (set_pending_io _ _) => apply fresh_le_set_pending_io
  | |- fresh_le _ (set_allFresh _ _) => apply fresh_le_set_allFresh
  | |- fresh_le ?s ?s => apply fresh_le_refl
  end.

Ltac case_if :=
  lazymatch goal with
  | |- context [if ?c then _ else _] => destruct c eqn:?
  end.

Ltac items_norm :=
  repeat first [progress items_simpl | rewrite item_at_alter];
  cbn [heap set_heap set_tasks set_promises set_pending_io set_trace
       set_allFresh set_tmap set_ignoredFilePaths set_startPathLoaded];
  rewrite ?length_alter.

Section Linking.

Lemma elem_of_delete_or {A} (l : list A) i x y :
    x ∈ l → l !! i = Some y → x = y ∨ x ∈ delete i l.
  Proof.
    intros [j Hj]%list_elem_of_lookup Hi.
    destruct (decide (j = i)) as [->|Hne]; [left; congruence|right].
    destruct (decide (j < i)%nat).
    - apply list_elem_of_lookup. exists j. by rewrite list_lookup_delete_lt.
    - apply list_elem_of_lookup. exists (j - 1)%nat.
      rewrite list_lookup_delete_ge by lia. by replace (S (j - 1)) with j by lia.
  Qed.

Lemma reload_due_mono s s' P r :
    reload_due s P r →
    fresh_le s s' →
    (length (heap s) ≤ length (heap s'))%nat →
    (∀ t, t ∈ tasks s → t ∈ tasks s') →
    reload_due s' P r.
  Proof.
    intros [Hf|(t & path & Hin & Hs & Hk & Hlt)] Hfr Hlen Hts; [left; auto|].
    right. exists t, path. split_and!; auto. lia.
  Qed.

  (** A synchronous call: the pool only grows. *)
Lemma reload_linked_grow s s' :
    reload_linked s →
    fresh_le s s' →
    (length (heap s) ≤ length (heap s'))%nat →
    (∀ t, t ∈ tasks s → t ∈ tasks s') →
    (∀ t r, t ∈ tasks s' → kont t = KDoUpdate r →
            t ∈ tasks s ∨ ∃ P, awaits t = [P] ∧ reload_due s' P r) →
    (∀ r P, updatePromise (item_at s' r) = Some P →
            updatePromise (item_at s r) = Some P ∨ reload_due s' P r) →
    reload_linked s'.
  Proof.
    intros [L1 L2] Hfr Hlen Hts Hnew Hup. split.
    - intros t r Hin Hk. destruct (Hnew t r Hin Hk) as [Hold|Hn]; [|done].
      destruct (L1 t r Hold Hk) as (P & Haw & Hdue). exists P. split; [done|].
      by eapply reload_due_mono.
    - intros r P Hu. destruct (Hup r P Hu) as [Hold|Hn]; [|done].
      eapply reload_due_mono; eauto.
  Qed.

  (** A resumption: task [i] leaves the pool; if it is the call of
      getUpdatePromise that had still to set the fresh flag, it sets it. *)
Lemma reload_linked_resume s s' i t0 :
    reload_linked s →
    tasks s !! i = Some t0 →
    fresh_le s s' →
    (length (heap s) ≤ length (heap s'))%nat →
    (∀ t, t ∈ delete i (tasks s) → t ∈ tasks s') →
    (∀ t r, t ∈ tasks s' → kont t = KDoUpdate r → t ∈ delete i (tasks s)) →
    (∀ path r, kont t0 = KUpdateLoaded path r → (r < length (heap s))%nat →
               fresh (item_at s' r) = true) →
    (∀ r P, updatePromise (item_at s' r) = Some P →
            updatePromise (item_at s r) = Some P) →
    reload_linked s'.
  Proof.
    intros [L1 L2] Hi Hfr Hlen Hts Hnew Hload Hup.
    assert (Hdue : ∀ P r, reload_due s P r → reload_due s' P r).
    { intros P r [Hf|(t & path & Hin & Hs & Hk & Hlt)]; [left; auto|].
      destruct (elem_of_delete_or _ _ _ _ Hin Hi) as [->|Hd].
      - left. eauto.
      - right. exists t, path. split_and!; auto. lia. }
    split.
    - intros t r Hin Hk. specialize (Hnew t r Hin Hk).
      apply list_elem_of_delete_inv in Hnew.
      destruct (L1 t r Hnew Hk) as (P & Haw & Hd). eauto.
    - intros r P Hu. eauto.
  Qed.

End Linking.

Section StoreSteps.
  Context `{Externals}.

Ltac unfold_methods :=
    unfold doUpdate, doUpdate_resume, getUpdatePromise, getUpdatePromise_fresh,
      getUpdatePromise_loaded, getUpdatePromise_hooked, loadDocumentFromFilePath,
      loadDocument_resume, onUpdate, readText, beFresh_resume in *.

Lemma doUpdate_store_wf filePath item s :
    store_wf s → store_wf (exec_M (doUpdate filePath item) s).
  Proof.
    intros Hwf. unfold_methods. munfold. cbn.
    destruct (bool_decide (filePath ∈ ignoredFilePaths s)); cbn.
    - store_tac.
    - destruct (updatePromise (item_at _ item)); cbn.
      + store_tac.
      + destruct (hasDocument (item_at _ item)); cbn; store_tac.
  Qed.

Lemma doUpdate_reloads_only filePath item s :
    reloads_only s → reloads_only (exec_M (doUpdate filePath item) s).
  Proof.
    intros Hro. unfold reloads_only. unfold_methods. munfold. cbn.
    destruct (bool_decide (filePath ∈ ignoredFilePaths s)); cbn; [done|].
    destruct (updatePromise (item_at _ item)); cbn.
    - intros t [?| ->%list_elem_of_singleton]%elem_of_app; auto.
    - destruct (hasDocument (item_at _ item)); cbn; intros t; rewrite !elem_of_app;
        rewrite !list_elem_of_singleton; intros Hin;
        repeat (destruct Hin as [Hin| ->]; [|done]); auto.
  Qed.

Lemma doUpdate_reload_linked filePath item s :
    reload_linked s → (item < length (heap s))%nat →
    reload_linked (exec_M (doUpdate filePath item) s).
  Proof.
    intros HL Hlt. unfold_methods. munfold. cbn.
    destruct (bool_decide (filePath ∈ ignoredFilePaths s)); cbn; [done|].
    destruct (updatePromise (item_at _ item)) as [P|] eqn:Hup; cbn.
    - items_simpl in Hup. apply (reload_linked_grow s); cbn; try done.
      + apply (fresh_le_alter s). done.
      + by rewrite length_alter.
      + intros t Hin. apply elem_of_app. by left.
      + intros t r [?| ->%list_elem_of_singleton]%elem_of_app Hk; [by left|right].
        injection Hk as <-. exists P. split; [done|].
        eapply reload_due_mono; [by apply HL| | |]; cbn.
        * apply (fresh_le_alter s). done.
        * by rewrite length_alter.
        * intros t Hin. apply elem_of_app. by left.
      + intros r P'. items_simpl. rewrite item_at_alter.
        destruct (decide (item = r)) as [<-|]; [|by left].
        rewrite decide_True by done. cbn. intros [= <-]. by left.
    - items_simpl in Hup.
      destruct (hasDocument (item_at _ item)) eqn:Hdoc; cbn.
      + assert (Hfr : fresh_le s (set_heap (alter (with_updatePromise
                        (Some (length (promises s ++ [Pending])))) item)
                        (set_heap (alter (with_fresh true) item) s))).
        { eapply fresh_le_trans; [apply (fresh_le_alter s)|apply fresh_le_alter]; done. }
        assert (Hnow : fresh (item_at (set_heap (alter (with_updatePromise
                        (Some (length (promises s ++ [Pending])))) item)
                        (set_heap (alter (with_fresh true) item) s)) item) = true).
        { rewrite fresh_at_alter_keep by done. rewrite item_at_alter.
          by rewrite !decide_True by done. }
        apply (reload_linked_grow s); cbn; try done.
        * by rewrite !length_alter.
        * intros t Hin. rewrite !elem_of_app. auto.
        * intros t r. rewrite !elem_of_app, !list_elem_of_singleton.
          intros [[?| ->]| ->] Hk; [by left|done|right].
          injection Hk as <-. eexists. split; [done|]. by left.
        * intros r P'. items_norm.
          destruct (decide (item = r)) as [<-|]; [|by left].
          intros _. right. by left.
      + apply (reload_linked_grow s); cbn; try done.
        * apply (fresh_le_alter s). done.
        * by rewrite !length_alter.
        * intros t Hin. rewrite !elem_of_app. auto.
        * intros t r. rewrite !elem_of_app, !list_elem_of_singleton.
          intros [[[?| ->]| ->]| ->] Hk; [by left|done|done|right].
          injection Hk as <-. eexists. split; [done|]. right.
          eexists _, filePath. cbn. rewrite length_alter.
          split; [rewrite !elem_of_app, !list_elem_of_singleton; left; right; reflexivity|].
          split_and!; [reflexivity|reflexivity|done].
        * intros r P'. items_norm.
          destruct (decide (item = r)) as [<-|]; [|by left].
          rewrite decide_True by done. cbn. intros [= <-]. right. right.
          eexists _, filePath. cbn. rewrite length_alter.
          split; [rewrite !elem_of_app, !list_elem_of_singleton; left; right; reflexivity|].
          split_and!; [reflexivity|reflexivity|done].
  Qed.

Lemma doUpdate_coherent filePath item s :
    coherent s → (item < length (heap s))%nat →
    coherent (exec_M (doUpdate filePath item) s).
  Proof.
    intros (Hw & Hl & Hr) Hlt. split_and!.
    - by apply doUpdate_store_wf.
    - by apply doUpdate_reload_linked.
    - by apply doUpdate_reloads_only.
  Qed.

Lemma resume_store_wf t s0 :
    store_wf s0 → unowned s0 (self t) → reload_kont (kont t) = true →
    store_wf (exec_M (resume t) s0).
  Proof.
    intros Hwf Hun Hk. destruct t as [aw me k]. cbn in Hun.
    destruct k; try done; unfold resume; unfold_methods; munfold; cbn.
    - destruct (awaited s0 _) as [| | [txt|] | | |]; cbn; store_tac.
    - destruct (awaited s0 _) as [| | | [d|] | |]; cbn; store_tac.
    - store_tac.
    - store_tac.
    - case_if; cbn; store_tac.
  Qed.

Lemma resume_reloads_only t s0 :
    reloads_only s0 → reload_kont (kont t) = true →
    reloads_only (exec_M (resume t) s0).
  Proof.
    intros Hro Hk. destruct t as [aw me k]. unfold reloads_only.
    destruct k; try done; unfold resume; unfold_methods; munfold; cbn.
    - destruct (awaited s0 _) as [| | [txt|] | | |]; cbn; exact Hro.
    - destruct (awaited s0 _) as [| | | [d|] | |]; cbn;
        intros t [?| ->%list_elem_of_singleton]%elem_of_app; auto.
    - case_if; cbn; exact Hro.
  Qed.

Lemma resume_reload_linked s i t0 :
    reload_linked s → tasks s !! i = Some t0 → reload_kont (kont t0) = true →
    reload_linked (exec_M (resume t0) (set_tasks (delete i) s)).
  Proof.
    intros HL Hi Hk. destruct t0 as [aw me k]; destruct k; try done;
      apply (reload_linked_resume s _ i _ HL Hi);
      unfold resume; unfold_methods; munfold; cbn;
      try (destruct (awaited _ _) as [| | [?|] | [?|] | |]; cbn);
      try (case_if; cbn);
      try fresh_le_tac.
    all: try (rewrite ?length_alter; done).
    all: try (intros ? Hin; rewrite ?elem_of_app; by auto).
    all: try (intros ? ?; rewrite ?elem_of_app, ?list_elem_of_singleton;
              by intros [?| ->] ?).
    all: try (intros path r [= -> ->] Hlt; items_norm;
              by rewrite ?decide_True by done).
    all: try (intros ? ?;
              repeat first [progress items_simpl
                           | rewrite updatePromise_at_alter_keep by done];
              done).
    all: try (intros ? ?; items_norm; repeat case_decide; by cbn).
  Qed.

  (** Steps of the run-time system keep a coherent state coherent. *)
Lemma exec_coherent a s s' :
    internal a = true → exec a s = Some s' → coherent s → coherent s'.
  Proof.
    intros Hint He (Hw & Hl & Hr). destruct a as [c|i|i v]; [done| |].
    - apply exec_run_inv in He as (t & Hi & Hready & ->).
      assert (Hk : reload_kont (kont t) = true).
      { apply Hr. by eapply list_elem_of_lookup_2. }
      destruct (store_wf_take s i t Hw Hi) as [Hw0 Hun0].
      split_and!.
      + by apply resume_store_wf.
      + by apply resume_reload_linked.
      + apply resume_reloads_only; [|done]. intros t' Hin. apply Hr.
        exact (list_elem_of_delete_inv _ _ _ Hin).
    - apply exec_io_inv in He as (p & rq & Hi & Ha & ->).
      destruct (store_wf_answer s i p rq Hw Hi) as [Hw0 Hun0].
      split_and!; [by apply store_wf_settle|exact Hl|exact Hr].
  Qed.

  (** *** What a reload request and a resumption leave alone *)

Lemma exec_M_bind {A B} (m : M A) (k : A → M B) s :
    exec_M (bind m k) s = exec_M (k (eval_M m s)) (exec_M m s).
  Proof. done. Qed.

Lemma eval_M_bind {A B} (m : M A) (k : A → M B) s :
    eval_M (bind m k) s = eval_M (k (eval_M m s)) (exec_M m s).
  Proof. done. Qed.

Lemma doUpdate_frame filePath item s :
    let s' := exec_M (doUpdate filePath item) s in
    fresh_le s s'
    ∧ length (heap s') = length (heap s)
    ∧ (∀ t, t ∈ tasks s → t ∈ tasks s')
    ∧ (∀ q, store_wf s → unowned s q → unowned s' q).
  Proof.
    unfold_methods. munfold. cbn.
    destruct (bool_decide (filePath ∈ ignoredFilePaths s)); cbn.
    { split_and!; [fresh_le_tac|done|done|]. intros q Hw Hq. store_tac. }
    destruct (updatePromise (item_at _ item)); cbn.
    { split_and!; [fresh_le_tac|by rewrite ?length_alter| |].
      - intros ? ?. rewrite ?elem_of_app. auto.
      - intros q Hw Hq. store_tac. }
    destruct (hasDocument (item_at _ item)); cbn.
    - split_and!; [fresh_le_tac|by rewrite ?length_alter| |].
      + intros ? ?. rewrite ?elem_of_app. auto.
      + intros q Hw Hq. store_tac.
    - split_and!; [fresh_le_tac|by rewrite ?length_alter| |].
      + intros ? ?. rewrite ?elem_of_app. auto.
      + intros q Hw Hq. store_tac.
  Qed.

  (** A request for a path that is not ignored suspends the caller: its
      promise is owned by a [KDoUpdate] task. *)
Lemma doUpdate_waiter filePath item s :
    filePath ∉ ignoredFilePaths s →
    ∃ t, t ∈ tasks (exec_M (doUpdate filePath item) s)
         ∧ kont t = KDoUpdate item
         ∧ self t = eval_M (doUpdate filePath item) s.
  Proof.
    intros Hni. unfold_methods. munfold. cbn.
    rewrite bool_decide_eq_false_2 by done. cbn.
    destruct (updatePromise (item_at _ item)); cbn;
      [|destruct (hasDocument (item_at _ item)); cbn];
      (eexists; split; [apply elem_of_app; right; apply list_elem_of_singleton; reflexivity|done]).
  Qed.

Lemma resume_frame t s0 :
    reload_kont (kont t) = true →
    let s' := exec_M (resume t) s0 in
    fresh_le s0 s'
    ∧ length (heap s') = length (heap s0)
    ∧ (∀ t', t' ∈ tasks s0 → t' ∈ tasks s')
    ∧ tmap s' = tmap s0
    ∧ ignoredFilePaths s' = ignoredFilePaths s0.
  Proof.
    intros Hk. destruct t as [aw me k]; destruct k; try done;
      unfold resume; unfold_methods; munfold; cbn;
      try (destruct (awaited _ _) as [| | [?|] | [?|] | |]; cbn);
      try (case_if; cbn).
    all: split_and!; [fresh_le_tac|by rewrite ?length_alter| |done|done].
    all: intros ? ?; rewrite ?elem_of_app; auto.
  Qed.

  (** Internal steps never clear a fresh flag, never shrink the heap and
      never touch the map or the ignored set (reload path only). *)
Lemma exec_frame a s s' :
    internal a = true → exec a s = Some s' → reloads_only s →
    fresh_le s s'
    ∧ length (heap s') = length (heap s)
    ∧ tmap s' = tmap s
    ∧ ignoredFilePaths s' = ignoredFilePaths s.
  Proof.
    intros Hint He Hr. destruct a as [c|i|i v]; [done| |].
    - apply exec_run_inv in He as (t & Hi & Hready & ->).
      assert (Hk : reload_kont (kont t) = true).
      { apply Hr. by eapply list_elem_of_lookup_2. }
      destruct (resume_frame t (set_tasks (delete i) s) Hk) as (Hf & Hl & _ & Hm & Hg).
      split_and!; [exact Hf|exact Hl|exact Hm|exact Hg].
    - apply exec_io_inv in He as (p & rq & Hi & Ha & ->). cbn.
      split_and!; [fresh_le_tac|done|done|done].
  Qed.

  (** *** The loop of beFresh *)

Lemma beFresh_loop_cons_fresh p r rest s :
    fresh (item_at s r) = true →
    beFresh_loop ((p, r) :: rest) s = beFresh_loop rest s.
  Proof.
    intros Hf. cbn [beFresh_loop]. unfold bind, read_item, gets. cbn [fst snd].
    by rewrite Hf.
  Qed.

Lemma beFresh_loop_cons_stale p r rest s :
    fresh (item_at s r) = false →
    beFresh_loop ((p, r) :: rest) s =
      (eval_M (doUpdate p r) s :: eval_M (beFresh_loop rest) (exec_M (doUpdate p r) s),
       exec_M (beFresh_loop rest) (exec_M (doUpdate p r) s)).
  Proof.
    intros Hf. cbn [beFresh_loop]. unfold bind at 1, read_item, gets. cbn [fst snd].
    by rewrite Hf.
  Qed.

Lemma beFresh_loop_spec entries : ∀ s ps s',
    beFresh_loop entries s = (ps, s') →
    coherent s →
    (∀ p r, (p, r) ∈ entries → (r < length (heap s))%nat) →
    coherent s'
    ∧ fresh_le s s'
    ∧ length (heap s') = length (heap s)
    ∧ (∀ t, t ∈ tasks s → t ∈ tasks s')
    ∧ same_registry s s'
    ∧ (∀ q, unowned s q → unowned s' q)
    ∧ (∀ p r, (p, r) ∈ entries → p ∉ ignoredFilePaths s →
              fresh (item_at s' r) = true
              ∨ ∃ t, t ∈ tasks s' ∧ kont t = KDoUpdate r ∧ self t ∈ ps).
  Proof.
    induction entries as [|[p r] rest IH]; intros s ps s' Heq Hc Hrefs.
    - cbn in Heq. injection Heq as <- <-. split_and!;
        [done|apply fresh_le_refl|done|done|apply same_registry_refl|done|].
      intros p r Hin. by apply elem_of_nil in Hin.
    - destruct (fresh (item_at s r)) eqn:Hfr.
      + rewrite beFresh_loop_cons_fresh in Heq by done.
        destruct (IH s ps s' Heq Hc) as (Hc' & Hle & Hlen & Hts & Hreg & Hun & Hres).
        { intros p' r' Hin. apply (Hrefs p' r'). by right. }
        split_and!; [done|done|done|done|done|done|].
        intros p' r' [[= -> ->]|Hin]%elem_of_cons Hni; [left; by apply Hle|].
        by apply (Hres p' r').
      + rewrite beFresh_loop_cons_stale in Heq by done.
        set (s1 := exec_M (doUpdate p r) s) in *.
        set (d := eval_M (doUpdate p r) s) in *.
        injection Heq as <- <-.
        assert (Hr : (r < length (heap s))%nat) by (apply (Hrefs p r); left).
        pose proof (doUpdate_coherent p r s Hc Hr) as Hc1. fold s1 in Hc1.
        destruct (doUpdate_frame p r s) as (Hle1 & Hlen1 & Hts1 & Hun1).
        fold s1 in Hle1, Hlen1, Hts1, Hun1.
        pose proof (doUpdate_registry p r s) as Hreg1.
        fold (exec_M (doUpdate p r) s) in Hreg1. fold s1 in Hreg1.
        destruct (IH s1 _ _ (surjective_pairing _) Hc1)
          as (Hc' & Hle & Hlen & Hts & Hreg & Hun & Hres).
        { intros p' r' Hin. rewrite Hlen1. apply (Hrefs p' r'). by right. }
        fold (exec_M (beFresh_loop rest) s1) in *.
        fold (eval_M (beFresh_loop rest) s1) in *.
        split_and!.
        * done.
        * exact (fresh_le_trans _ _ _ Hle1 Hle).
        * congruence.
        * auto.
        * exact (same_registry_trans _ _ _ Hreg1 Hreg).
        * intros q Hq. apply Hun, Hun1; [apply Hc|done].
        * intros p' r' [[= -> ->]|Hin]%elem_of_cons Hni.
          -- right. destruct (doUpdate_waiter p r s Hni) as (t & Hin & Hk & Hs).
             exists t. split_and!; [by apply Hts|done|]. rewrite Hs. left.
          -- destruct Hreg1 as (_ & Hig & _).
             destruct (Hres p' r' Hin) as [Hf|(t & Ht & Hk & Hs)];
               [by rewrite Hig|by left|].
             right. exists t. split_and!; [done|done|by right].
  Qed.

End StoreSteps.

(** ** The freshness barrier *)

Section Barrier.
  Context `{Externals}.

Lemma settled_not_pending s p : settled s p = true → ¬ pending s p.
  Proof. unfold settled, promise_at, pending. intros Hs Hp. by rewrite Hp in Hs. Qed.

Lemma task_pending s t : store_wf s → t ∈ tasks s → pending s (self t).
  Proof.
    intros [_ Hp] Hin. apply Hp. unfold owners. apply elem_of_app. left.
    by apply list_elem_of_fmap_2.
  Qed.

Lemma ready_settled s t q : ready s t = true → q ∈ awaits t → settled s q = true.
  Proof.
    unfold ready. rewrite forallb_forall. intros Hall Hin. apply Hall.
    by apply list_elem_of_In.
  Qed.

  (** A suspended caller of doUpdate that may resume finds its record
      fresh. *)
Lemma waiter_ready_fresh s t r :
    coherent s → t ∈ tasks s → kont t = KDoUpdate r → ready s t = true →
    fresh (item_at s r) = true.
  Proof.
    intros (Hw & [L1 _] & _) Hin Hk Hready.
    destruct (L1 t r Hin Hk) as (P & Haw & [Hf|(t' & path & Hin' & Hs & _)]); [done|].
    exfalso. apply (settled_not_pending s P).
    - apply (ready_settled s t); [done|]. rewrite Haw. left.
    - rewrite <- Hs. by apply task_pending.
  Qed.

  (** The state of one call of beFresh with promise [b], for the records
      [T] it has to make fresh: either the call is suspended on
      [Promise.all], and each record of [T] is fresh or has a suspended
      doUpdate among the awaited promises; or all of [T] is fresh. *)
Definition barrier (T : ref → Prop) (b : pid) (s : State) : Prop :=
    (∃ t, t ∈ tasks s ∧ self t = b ∧ kont t = KBeFreshAll
          ∧ ∀ r, T r → fresh (item_at s r) = true
                       ∨ ∃ t', t' ∈ tasks s ∧ kont t' = KDoUpdate r
                               ∧ self t' ∈ awaits t)
    ∨ (∀ r, T r → fresh (item_at s r) = true).

Lemma barrier_step T b a s s' :
    internal a = true → exec a s = Some s' →
    coherent s → barrier T b s → barrier T b s'.
  Proof.
    intros Hint He Hc Hb.
    destruct (exec_frame a s s' Hint He (proj2 (proj2 Hc))) as (Hle & _).
    destruct Hb as [(t & Hin & Hs & Hk & HT)|Hall]; [|right; intros r Hr; auto].
    destruct a as [c|i|i v]; [done| |].
    - apply exec_run_inv in He as (t0 & Hi & Hready & ->).
      assert (Hk0 : reload_kont (kont t0) = true).
      { apply Hc. by eapply list_elem_of_lookup_2. }
      destruct (resume_frame t0 (set_tasks (delete i) s) Hk0) as (_ & _ & Hts & _).
      cbn in Hts.
      destruct (elem_of_delete_or _ _ _ _ Hin Hi) as [->|Hd].
      + (* the barrier itself resumes: everything it awaited is settled *)
        right. intros r Hr. apply Hle.
        destruct (HT r Hr) as [Hf|(t' & Hin' & Hk' & Hs')]; [done|].
        exfalso. apply (settled_not_pending s (self t')).
        * by apply (ready_settled s t0).
        * apply task_pending; [apply Hc|done].
      + left. exists t. split_and!; [by apply Hts|done|done|].
        intros r Hr. destruct (HT r Hr) as [Hf|(t' & Hin' & Hk' & Hs')]; [left; auto|].
        destruct (elem_of_delete_or _ _ _ _ Hin' Hi) as [->|Hd'].
        * left. apply Hle. by apply (waiter_ready_fresh s t0).
        * right. exists t'. split_and!; [by apply Hts|done|done].
    - apply exec_io_inv in He as (p & rq & Hi & Ha & ->).
      left. exists t. split_and!; [done|done|done|].
      intros r Hr. destruct (HT r Hr) as [Hf|Hw]; [left|right]; done.
  Qed.

Lemma barrier_settled T b s :
    store_wf s → barrier T b s → settled s b = true →
    ∀ r, T r → fresh (item_at s r) = true.
  Proof.
    intros Hw [(t & Hin & Hs & _)|Hall] Hset; [|done].
    exfalso. apply (settled_not_pending s b Hset). rewrite <- Hs.
    by apply task_pending.
  Qed.

  (** The synchronous part of beFresh, when there is something to do and
      the start path is loaded. *)
Lemma beFresh_stale s :
    allFresh s = false → startPathLoaded s = true →
    beFresh s =
      let s0 := set_trace (λ t, t ++ [TimerStart "update"])
                  (set_promises (λ ps, ps ++ [Pending]) s) in
      let r := beFresh_loop (tmap s) s0 in
      (length (promises s),
       set_tasks (λ ts, ts ++ [{| awaits := r.1; self := length (promises s);
                                  kont := KBeFreshAll |}]) r.2).
  Proof.
    intros Haf Hsp. unfold beFresh, beFresh_updates. munfold. cbn.
    rewrite Haf. cbn. rewrite Hsp. reflexivity.
  Qed.

Lemma beFresh_establishes s :
    coherent s → registry_refs s →
    allFresh s = false → startPathLoaded s = true →
    let b := eval_M beFresh s in
    let s1 := exec_M beFresh s in
    coherent s1
    ∧ barrier (λ r, ∃ p, (p, r) ∈ tmap s ∧ p ∉ ignoredFilePaths s) b s1.
  Proof.
    intros Hc Hrefs Haf Hsp. unfold eval_M, exec_M. rewrite beFresh_stale by done.
    cbn zeta. cbn [fst snd].
    set (s0 := set_trace _ (set_promises _ s)).
    destruct (beFresh_loop (tmap s) s0) as [ps s2] eqn:Hloop. cbn [fst snd].
    assert (Hc0 : coherent s0).
    { destruct Hc as (Hw & Hl & Hr). split_and!; [subst s0; store_tac|exact Hl|exact Hr]. }
    assert (Hun0 : unowned s0 (length (promises s))).
    { subst s0. destruct Hc as (Hw & _). store_tac. }
    destruct (beFresh_loop_spec _ _ _ _ Hloop Hc0)
      as ((Hw2 & Hl2 & Hr2) & Hle & Hlen & Hts & Hreg & Hun & Hres).
    { intros p r Hin. by apply (Hrefs p r). }
    split.
    - split_and!.
      + store_tac. by apply Hun.
      + apply (reload_linked_grow s2); [done|fresh_le_tac|done| | |]; cbn.
        * intros t Hin. apply elem_of_app. by left.
        * intros t r [?| ->%list_elem_of_singleton]%elem_of_app Hk; [by left|done].
        * intros r P Hu. by left.
      + intros t [?| ->%list_elem_of_singleton]%elem_of_app; [by apply Hr2|done].
    - left. eexists. split_and!.
      + apply elem_of_app. right. apply list_elem_of_singleton. reflexivity.
      + done.
      + done.
      + intros r (p & Hin & Hni). cbn.
        destruct (Hres p r Hin Hni) as [Hf|(t & Ht & Hk & Hs)]; [by left|].
        right. exists t. split_and!; [|done|done]. apply elem_of_app. by left.
  Qed.


End Barrier.

(** * Concrete runs *)

Module Examples.
  Import Posix.

Definition opts_pull : FileTrackerOptions :=
    {| opt_includeGlobPattern := "**/*.css"; opt_excludeGlobPattern := None;
       opt_updateImmediately := Some false; opt_startPath := None |}.

Definition opts_absolute : FileTrackerOptions :=
    {| opt_includeGlobPattern := "/srv/**/*.css"; opt_excludeGlobPattern := None;
       opt_updateImmediately := None; opt_startPath := None |}.

  (** The state after the given steps, if they can all be taken. *)
Definition after (acts : list action) (s : State) : State :=
    default s (run acts s).

  (** One tracked, stale record. *)
Definition tracked : State :=
    exec_M (trackFile "/p/a.css") (initial opts_pull).

  (** The same, with the path ignored. *)
Definition ignored : State := exec_M (ignore "/p/a.css") tracked.

  (** A full reload of the record of [tracked]: the read succeeds, the hook
      returns, every suspended call resumes. *)
Definition reload_steps : list action :=
    [AIo 0 (VText (Some "a { }")); ARun 0; ARun 0; AIo 0 VUndefined;
     ARun 2; ARun 0; ARun 0].

  (** The record read from disk: fresh, closed, version 1. *)
Definition loaded : State := after reload_steps (exec_M beFresh tracked).

Definition buffer (v : Z) : TextDocument :=
    {| uri := "file:///p/a.css"; languageId := "css"; doc_version := v;
       text := "a { color: red }" |}.

  (** The record with an open buffer. *)
Definition editing : State :=
    exec_M (perform (DidChangeContent (buffer 2))) loaded.

Definition three_files : State :=
    exec_M (trackFile "/a/sub/d.css")
      (exec_M (trackFile "/a/c.css")
         (exec_M (trackFile "/a/b.css") (initial opts_pull))).

Definition siblings : State :=
    exec_M (trackFile "/ab.css")
      (exec_M (trackFile "/a/b.css") (initial opts_pull)).

Lemma quiescent_tracked : quiescent tracked.
  Proof.
    split_and!; [reflexivity|reflexivity|].
    intros it Hin. vm_compute in Hin.
    apply list_elem_of_singleton in Hin as ->. reflexivity.
  Defined.

Lemma quiescent_ignored : quiescent ignored.
  Proof.
    split_and!; [reflexivity|reflexivity|].
    intros it Hin. vm_compute in Hin.
    apply list_elem_of_singleton in Hin as ->. reflexivity.
  Defined.



Lemma doUpdate_ignored_witness :
    let s' := exec_M (doUpdate "/p/a.css" 0) ignored in
    heap s' = heap ignored ∧ trace s' = trace ignored ∧ tasks s' = [].
  Proof.
    assert (Hin : "/p/a.css" ∈ ignoredFilePaths ignored).
    { apply (bool_decide_unpack _). vm_compute. exact I. }
    destruct (doUpdate_ignored ignored "/p/a.css" 0%nat Hin)
      as (_ & Hh & Ht & _ & Hts & _).
    cbn zeta. by rewrite Hh, Ht, Hts.
  Defined.

Lemma trackFile_twice_witness :
    let s1 := exec_M (trackFile "/p/a.css") (initial opts_pull) in
    exec_M (trackFile "/p/a.css") s1 = s1
    ∧ length (filter (λ kv, kv.1 = "/p/a.css") (tmap s1)) = 1%nat.
  Proof.
    assert (Hwf : JsMap.wf (tmap (initial opts_pull))) by apply NoDup_nil_2.
    destruct (trackFile_twice (initial opts_pull) "/p/a.css" Hwf) as (H1 & H2 & _).
    cbn zeta in *. split; [exact H1|]. by rewrite <- H1.
  Defined.

  (** C5, refuted as stated: the buffer has the version of the record, not
      a greater one, and is attached all the same. *)
Lemma trackOpenedFile_attaches_unchanged :
    let s' := exec_M (perform (DidChangeContent (buffer 1))) loaded in
    version (item_at loaded 0) = 1
    ∧ opened (item_at loaded 0) = false
    ∧ bool_decide (doc_version (buffer 1) > version (item_at loaded 0)) = false
    ∧ document (item_at s' 0) = Some (buffer 1)
    ∧ opened (item_at s' 0) = true
    ∧ fresh (item_at s' 0) = true.
  Proof. vm_compute. by split_and!. Qed.

Lemma trackOpenedFile_existing_witness :
    let s' := exec_M (trackOpenedFile "/p/a.css" (buffer 2)) loaded in
    trace s' = trace loaded ++ [Log "/p/a.css expired"; OnExpired "/p/a.css" 0]
    ∧ tasks s' = tasks loaded.
  Proof.
    assert (Hit : ∃ it, heap loaded !! 0%nat = Some it ∧ expires (buffer 2) it = true).
    { eexists. split; vm_compute; reflexivity. }
    destruct Hit as (it & Hit & Hex).
    destruct (@trackOpenedFile_existing externals loaded (buffer 2) "/p/a.css"
                0%nat it ltac:(reflexivity) Hit) as (_ & _ & Htr & _ & _ & _ & _ & Hts).
    rewrite Hex in Htr. split; [exact Htr|exact Hts].
  Defined.

Lemma onDocumentClosed_detaches_witness :
    let s' := exec_M (perform (DidClose (buffer 2))) editing in
    document (item_at s' 0) = None ∧ version (item_at s' 0) = 1
    ∧ opened (item_at s' 0) = false
    ∧ fresh (item_at s' 0) = fresh (item_at editing 0)
    ∧ tmap s' = tmap editing.
  Proof.
    assert (Hit : ∃ it, heap editing !! 0%nat = Some it).
    { eexists. vm_compute. reflexivity. }
    destruct Hit as (it & Hit).
    destruct (@onDocumentClosed_detaches externals editing (buffer 2) "/p/a.css"
                0%nat it ltac:(reflexivity) ltac:(reflexivity) Hit)
      as (Hh & Hm & _).
    cbn zeta. unfold item_at. rewrite Hh, Hit.
    rewrite list_lookup_insert_eq by (by eapply lookup_lt_Some).
    split_and!; [reflexivity|reflexivity|reflexivity|reflexivity|exact Hm].
  Defined.

Lemma constructor_fails_fast_witness :
    (∃ msg, constructor opts_absolute = inl msg)
    ∧ (∃ s, constructor opts_pull = inr s).
  Proof.
    split.
    - apply (constructor_fails_fast opts_absolute); reflexivity.
    - apply (constructor_fails_fast opts_pull); reflexivity.
  Defined.

Lemma wf_three_files : JsMap.wf (tmap three_files).
  Proof. apply (bool_decide_unpack _). vm_compute. exact I. Defined.

Lemma wf_siblings : JsMap.wf (tmap siblings).
  Proof. apply (bool_decide_unpack _). vm_compute. exact I. Defined.

  (** The cascade of the specification: deleting [/a] removes the three
      records under it and calls onUnTrack once for each. *)
Lemma unTrackPath_cascade_witness :
    let s' := exec_M (perform (CallUnTrackPath "/a")) three_files in
    JsMap.get "/a/b.css" (tmap s') = None
    ∧ JsMap.get "/a/c.css" (tmap s') = None
    ∧ JsMap.get "/a/sub/d.css" (tmap s') = None
    ∧ (∃ events, trace s' = trace three_files ++ events
                 ∧ onUnTrack_calls events =
                     [("/a/b.css", 0%nat); ("/a/c.css", 1%nat); ("/a/sub/d.css", 2%nat)])
    ∧ allFresh s' = false.
  Proof.
    destruct (unTrackPath_cascade three_files "/a" wf_three_files)
      as (Hget & _ & Hev & _ & Haf & _).
    cbn zeta. rewrite !Hget. split_and!; [done|done|done|exact Hev|exact Haf].
  Defined.

  (** The sibling [/ab.css] is not under the directory [/a], but starts
      with the string [/a]: it is removed as well. *)
Lemma unTrackPath_raw_prefix_witness :
    JsMap.get "/ab.css" (tmap siblings) = Some 1%nat
    ∧ JsMap.get "/ab.css" (tmap (exec_M (unTrackPath "/a") siblings)) = None.
  Proof.
    split; [reflexivity|].
    apply (unTrackPath_raw_prefix siblings "/a" "/ab.css" 1%nat wf_siblings);
      reflexivity.
  Defined.

End Examples.

(** ** One reload, several callers *)

(** How many events of a trace satisfy a test. *)
Definition count (f : event → bool) (t : list event) : nat :=
  length (List.filter f t).

Definition is_read (filePath : string) (e : event) : bool :=
  match e with
  | ReadText p => String.eqb p filePath
  | _ => false
  end.

Definition is_hook (filePath : string) (item : ref) (e : event) : bool :=
  match e with
  | OnUpdate p r => String.eqb p filePath && Nat.eqb r item
  | _ => false
  end.

Section Counting.

Lemma count_app f t1 t2 : count f (t1 ++ t2) = (count f t1 + count f t2)%nat.
Proof. unfold count. by rewrite List.filter_app, length_app. Qed.

Lemma count_nil f : count f [] = 0%nat.
Proof. done. Qed.

Lemma count_one f e : count f [e] = if f e then 1%nat else 0%nat.
Proof. unfold count. cbn. by destruct (f e). Qed.

Lemma task_self_inj s t1 t2 :
  store_wf s → t1 ∈ tasks s → t2 ∈ tasks s → self t1 = self t2 → t1 = t2.
Proof.
  intros [Hnd _] H1 H2 Heq. unfold owners in Hnd.
  apply NoDup_app in Hnd as (Hnd & _ & _).
  apply list_elem_of_lookup in H1 as [i Hi]. apply list_elem_of_lookup in H2 as [j Hj].
  assert (i = j); [|congruence].
  eapply NoDup_lookup; [exact Hnd| |].
  - rewrite list_lookup_fmap, Hi. reflexivity.
  - rewrite list_lookup_fmap, Hj. cbn. by rewrite Heq.
Qed.

Lemma taken_not_left s i t t' :
  store_wf s → tasks s !! i = Some t → t' ∈ delete i (tasks s) → self t' ≠ self t.
Proof.
  intros Hw Hi Hin Heq. destruct (store_wf_take s i t Hw Hi) as [_ [Hn _]].
  apply Hn. unfold owners. cbn. apply elem_of_app. left.
  rewrite <- Heq. by apply list_elem_of_fmap_2.
Qed.

Lemma request_not_task s i p rq t :
  store_wf s → pending_io s !! i = Some (p, rq) → t ∈ tasks s → self t ≠ p.
Proof.
  intros [Hnd _] Hi Hin Heq. unfold owners in Hnd.
  apply NoDup_app in Hnd as (_ & Hdisj & _). apply (Hdisj p).
  - rewrite <- Heq. by apply list_elem_of_fmap_2.
  - apply list_elem_of_fmap. exists (p, rq). split; [done|].
    by eapply list_elem_of_lookup_2.
Qed.

End Counting.

Section Effects.
Context `{Externals}.

Ltac unfold_methods :=
  unfold doUpdate, doUpdate_resume, getUpdatePromise, getUpdatePromise_fresh,
    getUpdatePromise_loaded, getUpdatePromise_hooked, loadDocumentFromFilePath,
    loadDocument_resume, onUpdate, readText, beFresh_resume in *.

(** How many calls of the hook for [(p, r)] one resumption makes. *)
Definition hooks_of_kont (k : cont) (p : string) (r : ref) : nat :=
  match k with
  | KUpdateLoaded p' r' => if String.eqb p' p && Nat.eqb r' r then 1 else 0
  | _ => 0
  end.

(** What the resumption of a task of the reload path does to the trace, to
    the other promises, to the pool and to the records it does not own. *)
Lemma resume_effect t0 s0 :
  reload_kont (kont t0) = true →
  let s' := exec_M (resume t0) s0 in
  (∃ ev, trace s' = trace s0 ++ ev
         ∧ (∀ p, count (is_read p) ev = 0%nat)
         ∧ (∀ p r, count (is_hook p r) ev = hooks_of_kont (kont t0) p r))
  ∧ (∀ q, q ≠ self t0 → (q < length (promises s0))%nat →
          promise_at s' q = promise_at s0 q)
  ∧ (∀ t, t ∈ tasks s0 → t ∈ tasks s')
  ∧ (∀ t, t ∈ tasks s' →
          t ∈ tasks s0 ∨ ∃ p h, self t = self t0 ∧ kont t = KUpdateHooked p h)
  ∧ (∀ r, (∀ p, kont t0 ≠ KUpdateLoaded p r) →
          fresh (item_at s' r) = fresh (item_at s0 r)
          ∧ document (item_at s' r) = document (item_at s0 r))
  ∧ (∀ r, (∀ p, kont t0 ≠ KUpdateLoaded p r) → kont t0 ≠ KDoUpdate r →
          item_at s' r = item_at s0 r)
  ∧ (∀ r, kont t0 ≠ KDoUpdate r →
          updatePromise (item_at s' r) = updatePromise (item_at s0 r)).
Proof.
  intros Hk. destruct t0 as [aw me k]; destruct k; try done;
    unfold resume; unfold_methods; munfold; cbn;
    try (destruct (awaited _ _) as [| | [?|] | [?|] | |]; cbn);
    try (case_if; cbn).
  all: split_and!.
  all: try (intros q Hne Hlt; unfold promise_at; cbn;
            rewrite ?list_lookup_insert_ne by done;
            by rewrite ?lookup_app_l by done).
  all: try (intros ? ?; rewrite ?elem_of_app; by auto).
  all: try (intros ?; rewrite ?elem_of_app, ?list_elem_of_singleton;
            intros [?| ->]; [by left|right; by eauto]).
  all: try (eexists []; rewrite app_nil_r; split_and!;
            [reflexivity|intros; reflexivity|intros; reflexivity]).
  all: try (eexists [_]; split_and!;
            [reflexivity|intros; reflexivity|intros; rewrite count_one; reflexivity]).
  all: try (intros r Hne; items_simpl;
            rewrite !(field_at_alter_keep fresh), !(field_at_alter_keep document) by done;
            done).
  all: try (intros r Hne; items_norm; repeat case_decide; subst; try done;
            exfalso; by eapply Hne).
  all: try (intros r Hne; items_simpl;
            repeat (rewrite (field_at_alter_keep updatePromise) by done);
            done).
  all: try (intros r Hne; items_norm; repeat case_decide; subst; done).
Qed.

Lemma promise_at_settle s p v :
  (p < length (promises s))%nat →
  promise_at (set_promises (λ ps, <[p := Settled v]> ps) s) p = Settled v.
Proof. intros Hlt. unfold promise_at. cbn. by rewrite list_lookup_insert_eq. Qed.

(** loadDocumentFromFilePath returns; a failed read is logged and gives no
    document. *)
Lemma resume_loadDocument t0 s0 p l u rd :
  kont t0 = KLoadDocument p l u → awaits t0 = [rd] → pending s0 (self t0) →
  let s' := exec_M (resume t0) s0 in
  settled s' (self t0) = true
  ∧ (promise_at s0 rd = Settled (VText None) →
     promise_at s' (self t0) = Settled (VDocument None)
     ∧ trace s' = trace s0 ++ [LogError p]).
Proof.
  intros Hk Haw Hp. apply pending_lt in Hp.
  destruct t0 as [aw me k]. cbn in *. subst aw k.
  unfold resume, awaited, value_at, settled. unfold_methods. munfold. cbn.
  destruct (promise_at s0 rd) as [|[| | [txt|] | | |]] eqn:Hrd; cbn;
    rewrite promise_at_settle by done; split; try done.
Qed.

(** getUpdatePromise takes the loaded document, marks the record fresh and
    calls the hook; its promise stays pending. *)
Lemma resume_updateLoaded t0 s0 p r ld :
  kont t0 = KUpdateLoaded p r → awaits t0 = [ld] → (r < length (heap s0))%nat →
  pending s0 (self t0) →
  let s' := exec_M (resume t0) s0 in
  fresh (item_at s' r) = true
  ∧ (promise_at s0 ld = Settled (VDocument None) → document (item_at s' r) = None)
  ∧ pending s' (self t0).
Proof.
  intros Hk Haw Hlt Hp. pose proof (pending_lt _ _ Hp) as Hme.
  destruct t0 as [aw me k]. cbn in *. subst aw k.
  unfold resume, awaited, value_at. unfold_methods. munfold. cbn.
  destruct (promise_at s0 ld) as [|[| | | [d|] | |]] eqn:Hld; cbn.
  all: split_and!; try done.
  all: try (items_norm; by rewrite !decide_True by done).
  all: try (unfold pending in *; cbn; by rewrite lookup_app_l by done).
Qed.

(** doUpdate returns [true] and releases the lock. *)
Lemma resume_doUpdate t0 s0 r :
  kont t0 = KDoUpdate r → pending s0 (self t0) →
  promise_at (exec_M (resume t0) s0) (self t0) = Settled (VBool true).
Proof.
  intros Hk Hp. apply pending_lt in Hp.
  destruct t0 as [aw me k]. cbn in *. subst k.
  unfold resume. unfold_methods. munfold. cbn. by rewrite promise_at_settle.
Qed.

(** getUpdatePromise returns. *)
Lemma resume_hooked t0 s0 p h :
  kont t0 = KUpdateHooked p h → pending s0 (self t0) →
  settled (exec_M (resume t0) s0) (self t0) = true.
Proof.
  intros Hk Hp. apply pending_lt in Hp.
  destruct t0 as [aw me k]. cbn in *. subst k.
  unfold resume, settled. unfold_methods. munfold. cbn. by rewrite promise_at_settle.
Qed.

(** A settled promise keeps its value. *)
Lemma exec_settled_stable a s s' q :
  internal a = true → exec a s = Some s' → store_wf s → reloads_only s →
  settled s q = true → promise_at s' q = promise_at s q.
Proof.
  intros Hint He Hw Hr Hq.
  assert (Hlt : (q < length (promises s))%nat).
  { unfold settled, promise_at in Hq. destruct (promises s !! q) eqn:E; [|done].
    by eapply lookup_lt_Some. }
  destruct a as [c|i|i v]; [done| |].
  - apply exec_run_inv in He as (t & Hi & Hready & ->).
    assert (Hk : reload_kont (kont t) = true).
    { apply Hr. by eapply list_elem_of_lookup_2. }
    destruct (resume_effect t (set_tasks (delete i) s) Hk) as (_ & Hst & _).
    apply Hst; [|done]. intros ->. apply (settled_not_pending s (self t) Hq).
    apply task_pending; [done|]. by eapply list_elem_of_lookup_2.
  - apply exec_io_inv in He as (p & rq & Hi & Ha & ->).
    unfold promise_at. cbn. rewrite list_lookup_insert_ne; [done|].
    intros ->. apply (settled_not_pending s q Hq).
    destruct Hw as [_ Hp]. apply Hp. unfold owners. apply elem_of_app. right.
    apply list_elem_of_fmap. exists (q, rq). split; [done|].
    by eapply list_elem_of_lookup_2.
Qed.

End Effects.

Section Chain.
Context `{Externals}.

(** One call of getUpdatePromise for the record [item] at [filePath]: its
    promise [P], the trace [tr0] before the first request, and, when the
    document is read from disk, the promises [lo = Some (rd, ld)] of
    readText and of loadDocumentFromFilePath. *)
Variables (filePath : string) (item : ref) (P : pid) (tr0 : list event)
  (lo : option (pid * pid)).

(** The call of doUpdate with promise [d] is suspended on [P]. *)
Definition waiting (s : State) (d : pid) : Prop :=
  ∃ t, t ∈ tasks s ∧ self t = d ∧ kont t = KDoUpdate item.

(** It has returned [true], after [P] was settled. *)
Definition returned (s : State) (d : pid) : Prop :=
  promise_at s d = Settled (VBool true) ∧ settled s P = true.

(** Before [item.fresh = true]: the document is being read, the hook has
    not been called. *)
Definition loading_phase (s : State) (ev : list event) : Prop :=
  ∃ rd ld, lo = Some (rd, ld)
    ∧ (∃ tU, tU ∈ tasks s ∧ self tU = P ∧ awaits tU = [ld]
             ∧ kont tU = KUpdateLoaded filePath item)
    ∧ count (is_hook filePath item) ev = 0%nat
    ∧ ((∃ tL l u, tL ∈ tasks s ∧ self tL = ld ∧ awaits tL = [rd]
                  ∧ kont tL = KLoadDocument filePath l u)
       ∨ (settled s rd = true ∧ settled s ld = true
          ∧ (promise_at s rd = Settled (VText None) →
             promise_at s ld = Settled (VDocument None)
             ∧ LogError filePath ∈ ev))).

(** From [item.fresh = true] on: the hook has been called once. *)
Definition loaded_phase (s : State) (ev : list event) : Prop :=
  (∀ t path, t ∈ tasks s → kont t ≠ KUpdateLoaded path item)
  ∧ count (is_hook filePath item) ev = 1%nat
  ∧ fresh (item_at s item) = true
  ∧ (∀ rd ld, lo = Some (rd, ld) →
       settled s rd = true
       ∧ (promise_at s rd = Settled (VText None) →
          document (item_at s item) = None ∧ LogError filePath ∈ ev)).

(** The reload and the callers [ds] waiting for it. *)
Definition chain (ds : list pid) (s : State) : Prop :=
  ∃ ev, trace s = tr0 ++ ev
    ∧ count (is_read filePath) ev = match lo with Some _ => 1%nat | None => 0%nat end
    ∧ (∀ t path, t ∈ tasks s → kont t = KUpdateLoaded path item → self t = P)
    ∧ (∀ t, t ∈ tasks s → kont t = KDoUpdate item → self t ∈ ds ∧ awaits t = [P])
    ∧ (∀ d, d ∈ ds → waiting s d ∨ returned s d)
    ∧ ((∀ d, d ∈ ds → waiting s d) → updatePromise (item_at s item) = Some P)
    ∧ (item < length (heap s))%nat
    ∧ (loading_phase s ev ∨ loaded_phase s ev).

Lemma hooks_of_other_kont k :
  (∀ path, k ≠ KUpdateLoaded path item) → hooks_of_kont k filePath item = 0%nat.
Proof.
  intros Hne. destruct k; try done. cbn.
  destruct (Nat.eqb item0 item) eqn:E; [|by rewrite andb_false_r].
  apply Nat.eqb_eq in E as ->. by destruct (Hne filePath0).
Qed.

Lemma chain_answer ds i v s s' :
  exec (AIo i v) s = Some s' → coherent s → chain ds s → chain ds s'.
Proof.
  intros He Hc (ev & Htr & Hreads & Huniq & Hwait & Hds & Hlock & Hlt & Hphase).
  pose proof Hc as (Hw & Hl & Hr).
  assert (Hstable : ∀ q, settled s q = true → promise_at s' q = promise_at s q).
  { intros q Hq. exact (exec_settled_stable (AIo i v) s s' q eq_refl He Hw Hr Hq). }
  assert (Hstable' : ∀ q, settled s q = true → settled s' q = true).
  { intros q Hq. unfold settled. rewrite Hstable by done. exact Hq. }
  apply exec_io_inv in He as (p & rq & Hi & Ha & ->).
  exists ev. split_and!; try done.
  - intros d Hd. destruct (Hds d Hd) as [Hwt|[Hv HP]]; [by left|right].
    split; [|by apply Hstable'].
    rewrite Hstable; [done|]. unfold settled. by rewrite Hv.
  - destruct Hphase as [(rd & ld & Hlo & HtU & Hh & Hsub)|(Hno & Hh & Hf & Hdoc)].
    + left. exists rd, ld. split_and!; try done.
      destruct Hsub as [HtL|(Hrd & Hld & Himp)]; [by left|right].
      split_and!; [by apply Hstable'|by apply Hstable'|].
      rewrite !Hstable by done. exact Himp.
    + right. split_and!; try done. intros rd ld Hlo.
      destruct (Hdoc rd ld Hlo) as [Hrd Himp].
      split; [by apply Hstable'|]. rewrite Hstable by done. exact Himp.
Qed.

Lemma chain_resume ds i s s' :
  exec (ARun i) s = Some s' → coherent s → chain ds s → chain ds s'.
Proof.
  intros He Hc (ev & Htr & Hreads & Huniq & Hwait & Hds & Hlock & Hlt & Hphase).
  pose proof Hc as (Hw & Hl & Hr).
  assert (Hstable : ∀ q, settled s q = true → promise_at s' q = promise_at s q).
  { intros q Hq. exact (exec_settled_stable (ARun i) s s' q eq_refl He Hw Hr Hq). }
  assert (Hstable' : ∀ q, settled s q = true → settled s' q = true).
  { intros q Hq. unfold settled. rewrite Hstable by done. exact Hq. }
  apply exec_run_inv in He as (t0 & Hi & Hready & ->).
  assert (Hin0 : t0 ∈ tasks s) by (by eapply list_elem_of_lookup_2).
  assert (Hk0 : reload_kont (kont t0) = true) by (by apply Hr).
  destruct (store_wf_take s i t0 Hw Hi) as [Hw0 [_ Hpend0]].
  set (s0 := set_tasks (delete i) s) in *.
  destruct (resume_effect t0 s0 Hk0)
    as ((ev1 & Htr1 & Hreads1 & Hhooks1) & _ & Hsub & Hnew & Hfd & Hitem & Hup).
  destruct (resume_frame t0 s0 Hk0) as (_ & Hlen & _).
  set (s' := exec_M (resume t0) s0) in *.
  (* the pool *)
  assert (T1 : ∀ t, t ∈ tasks s' → (∀ p h, kont t ≠ KUpdateHooked p h) → t ∈ tasks s0).
  { intros t Hin Hne. destruct (Hnew t Hin) as [?|(p & h & _ & Hk)]; [done|].
    by destruct (Hne p h). }
  assert (T2 : ∀ t, t ∈ tasks s0 → t ∈ tasks s).
  { intros t Hin. exact (list_elem_of_delete_inv _ _ _ Hin). }
  assert (T3 : ∀ t, t ∈ tasks s → t = t0 ∨ t ∈ tasks s0).
  { intros t Hin. exact (elem_of_delete_or _ _ _ _ Hin Hi). }
  assert (T4 : ∀ t, t ∈ tasks s0 → self t ≠ self t0).
  { intros t Hin. exact (taken_not_left s i t0 t Hw Hi Hin). }
  assert (Hev : ∀ e, e ∈ ev → e ∈ ev ++ ev1).
  { intros e He. apply elem_of_app. by left. }
  exists (ev ++ ev1). split_and!.
  - change (trace s0) with (trace s) in Htr1. by rewrite Htr1, Htr, app_assoc.
  - by rewrite count_app, Hreads, Hreads1, Nat.add_0_r.
  - intros t path Hin Hk. apply (Huniq t path); [|done].
    apply T2, T1; [done|]. intros p h. by rewrite Hk.
  - intros t Hin Hk. apply Hwait; [|done].
    apply T2, T1; [done|]. intros p h. by rewrite Hk.
  - intros d Hd. destruct (Hds d Hd) as [(t & Hin & Hs & Hk)|[Hv HP]].
    + destruct (T3 t Hin) as [->|Hin'].
      * right. destruct (Hwait t0 Hin0 Hk) as [_ Haw]. split.
        -- rewrite <- Hs. exact (resume_doUpdate t0 s0 item Hk Hpend0).
        -- apply Hstable'. apply (ready_settled s t0); [done|]. rewrite Haw. left.
      * left. exists t. split_and!; [by apply Hsub|done|done].
    + right. split; [|by apply Hstable'].
      rewrite Hstable; [done|]. unfold settled. by rewrite Hv.
  - intros Hall.
    assert (Hk0' : kont t0 ≠ KDoUpdate item).
    { intros Hk. destruct (Hwait t0 Hin0 Hk) as [Hd _].
      destruct (Hall _ Hd) as (t & Hin & Hs & Hkt).
      apply (T4 t); [|done]. apply T1; [done|]. intros p h. by rewrite Hkt. }
    rewrite Hup by done. apply Hlock. intros d Hd.
    destruct (Hall d Hd) as (t & Hin & Hs & Hkt). exists t. split_and!; [|done|done].
    apply T2, T1; [done|]. intros p h. by rewrite Hkt.
  - by rewrite Hlen.
  - destruct Hphase as [(rd & ld & Hlo & (tU & HinU & HsU & HawU & HkU) & Hh & Hsub')
                       |(Hno & Hh & Hf & Hdoc)].
    + destruct (T3 tU HinU) as [->|HinU'].
      * (* getUpdatePromise resumes: the record becomes fresh *)
        right.
        assert (Hld : settled s ld = true).
        { apply (ready_settled s t0); [done|]. rewrite HawU. left. }
        destruct Hsub' as [(tL & l & u & HinL & HsL & _)|(Hrd & _ & Himp)].
        { exfalso. apply (settled_not_pending s ld Hld). rewrite <- HsL.
          by apply task_pending. }
        destruct (resume_updateLoaded t0 s0 filePath item ld HkU HawU Hlt Hpend0)
          as (Hfresh & Hnone & _).
        split_and!.
        -- intros t path Hin Hk. apply (T4 t).
           ++ apply T1; [done|]. intros p h. by rewrite Hk.
           ++ rewrite HsU. apply (Huniq t path); [|done].
              apply T2, T1; [done|]. intros p h. by rewrite Hk.
        -- rewrite count_app, Hh, Hhooks1, HkU. cbn.
           by rewrite String.eqb_refl, Nat.eqb_refl.
        -- exact Hfresh.
        -- intros rd' ld' Hlo'. rewrite Hlo in Hlo'. injection Hlo' as <- <-.
           split; [by apply Hstable'|]. rewrite Hstable by done. intros Hnone'.
           destruct (Himp Hnone') as [Hv Herr]. split; [|by apply Hev].
           apply Hnone. exact Hv.
      * left. exists rd, ld. split_and!; [done| | |].
        -- exists tU. split_and!; [by apply Hsub|done|done|done].
        -- rewrite count_app, Hh, Hhooks1. rewrite hooks_of_other_kont; [done|].
           intros path Hk. apply (T4 tU HinU'). rewrite HsU. symmetry.
           by apply (Huniq t0 path).
        -- destruct Hsub' as [(tL & l & u & HinL & HsL & HawL & HkL)|(Hrd & Hld & Himp)].
           ++ destruct (T3 tL HinL) as [->|HinL'].
              ** right.
                 assert (Hrd : settled s rd = true).
                 { apply (ready_settled s t0); [done|]. rewrite HawL. left. }
                 destruct (resume_loadDocument t0 s0 filePath l u rd HkL HawL Hpend0)
                   as (Hset & Herr).
                 split_and!; [by apply Hstable'|by rewrite <- HsL|].
                 rewrite Hstable by done. intros Hnone.
                 destruct (Herr Hnone) as [Hv Htr']. split; [by rewrite <- HsL|].
                 fold s' in Htr'. rewrite Htr1 in Htr'.
                 apply app_inv_head in Htr'. subst ev1.
                 apply elem_of_app. right. left.
              ** left. exists tL, l, u. split_and!; [by apply Hsub|done|done|done].
           ++ right. split_and!; [by apply Hstable'|by apply Hstable'|].
              rewrite !Hstable by done. intros Hnone.
              destruct (Himp Hnone). split; [done|by apply Hev].
    + right.
      assert (Hk0' : ∀ path, kont t0 ≠ KUpdateLoaded path item).
      { intros path. by apply Hno. }
      destruct (Hfd item Hk0') as [Hfr' Hdoc'].
      split_and!.
      * intros t path Hin Hk. apply (Hno t path); [|done].
        apply T2, T1; [done|]. intros p h. by rewrite Hk.
      * by rewrite count_app, Hh, Hhooks1, hooks_of_other_kont.
      * by rewrite Hfr'.
      * intros rd ld Hlo. destruct (Hdoc rd ld Hlo) as [Hrd Himp].
        split; [by apply Hstable'|]. rewrite Hstable by done. intros Hnone.
        destruct (Himp Hnone). split; [by rewrite Hdoc'|by apply Hev].
Qed.

(** The reload keeps its shape under every step of the run-time system. *)
Lemma chain_step ds a s s' :
  internal a = true → exec a s = Some s' → coherent s → chain ds s → chain ds s'.
Proof.
  destruct a as [c|i|i v]; [done| |]; intros _.
  - apply chain_resume.
  - apply chain_answer.
Qed.

End Chain.

(** No reload of the record is in flight: the lock is free and no suspended
    task holds the record. *)
Definition idle (s : State) (item : ref) : Prop :=
  updatePromise (item_at s item) = None
  ∧ (∀ t, t ∈ tasks s → kont t ≠ KDoUpdate item)
  ∧ (∀ t path, t ∈ tasks s → kont t ≠ KUpdateLoaded path item).

(** The promises a first request creates in state [s]: doUpdate takes
    [length (promises s)], getUpdatePromise the next one, then
    loadDocumentFromFilePath and readText when there is no open document. *)
Definition update_promise (s : State) : pid := S (length (promises s)).
Definition load_promises (s : State) (item : ref) : option (pid * pid) :=
  if hasDocument (item_at s item) then None
  else Some ((length (promises s) + 3)%nat, (length (promises s) + 2)%nat).

Section SingleFlight.
Context `{Externals}.

Ltac unfold_methods :=
  unfold doUpdate, doUpdate_resume, getUpdatePromise, getUpdatePromise_fresh,
    getUpdatePromise_loaded, getUpdatePromise_hooked, loadDocumentFromFilePath,
    loadDocument_resume, onUpdate, readText, beFresh_resume in *.

Lemma chain_start filePath item s :
  (item < length (heap s))%nat → filePath ∉ ignoredFilePaths s → idle s item →
  chain filePath item (update_promise s) (trace s) (load_promises s item)
    [eval_M (doUpdate filePath item) s] (exec_M (doUpdate filePath item) s).
Proof.
  intros Hlt Hni (Hup & HnoD & HnoU).
  unfold chain, waiting, returned, loading_phase, loaded_phase, load_promises,
    update_promise.
  unfold_methods. munfold. cbn.
  rewrite bool_decide_eq_false_2 by done. cbn. items_simpl. rewrite Hup. cbn.
  items_simpl. destruct (hasDocument (item_at s item)) eqn:Hdoc; cbn.
  - exists [OnUpdate filePath item]. split_and!.
    + done.
    + done.
    + intros t path. rewrite !elem_of_app, !list_elem_of_singleton.
      intros [[Hin| ->]| ->] Hk; [by destruct (HnoU t path Hin)|done|done].
    + intros t. rewrite !elem_of_app, !list_elem_of_singleton.
      intros [[Hin| ->]| ->] Hk; [by destruct (HnoD t Hin)|done|].
      split; [reflexivity|]. cbn. by rewrite length_app, Nat.add_1_r.
    + intros d ->%list_elem_of_singleton. left. eexists.
      split; [rewrite !elem_of_app, !list_elem_of_singleton; right; reflexivity|].
      split; reflexivity.
    + intros _. items_norm. rewrite !decide_True by done. cbn.
      by rewrite length_app, Nat.add_1_r.
    + by rewrite !length_alter.
    + right. split_and!.
      * intros t path. rewrite !elem_of_app, !list_elem_of_singleton.
        intros [[Hin| ->]| ->]; [by apply HnoU|done|done].
      * rewrite count_one. cbn. by rewrite String.eqb_refl, Nat.eqb_refl.
      * items_norm. by rewrite !decide_True by done.
      * done.
  - exists [ReadText filePath]. split_and!.
    + done.
    + rewrite count_one. cbn. by rewrite String.eqb_refl.
    + intros t path. rewrite !elem_of_app, !list_elem_of_singleton.
      intros [[[Hin| ->]| ->]| ->] Hk; [by destruct (HnoU t path Hin)|done| |done].
      cbn. by rewrite length_app, Nat.add_1_r.
    + intros t. rewrite !elem_of_app, !list_elem_of_singleton.
      intros [[[Hin| ->]| ->]| ->] Hk; [by destruct (HnoD t Hin)|done|done|].
      split; [reflexivity|]. cbn. by rewrite length_app, Nat.add_1_r.
    + intros d ->%list_elem_of_singleton. left. eexists.
      split; [rewrite !elem_of_app, !list_elem_of_singleton; right; reflexivity|].
      split; reflexivity.
    + intros _. items_norm. rewrite !decide_True by done. cbn.
      by rewrite length_app, Nat.add_1_r.
    + by rewrite !length_alter.
    + left. exists (length (promises s) + 3)%nat, (length (promises s) + 2)%nat.
      split_and!; [reflexivity| |done|].
      * eexists.
        split; [rewrite !elem_of_app, !list_elem_of_singleton; left; right; reflexivity|].
        cbn. rewrite !length_app. cbn. split_and!; [lia|f_equal; lia|done].
      * left. eexists _, _, _.
        split; [rewrite !elem_of_app, !list_elem_of_singleton;
                left; left; right; reflexivity|].
        cbn. rewrite !length_app. cbn. split_and!; [lia|f_equal; lia|done].
Qed.

(** The promise store only grows, and doUpdate takes its next promise. *)
Lemma exec_promises_grow a s s' :
  internal a = true → exec a s = Some s' → reloads_only s →
  (length (promises s) ≤ length (promises s'))%nat.
Proof.
  intros Hint He Hr. destruct a as [c|i|i v]; [done| |].
  - apply exec_run_inv in He as (t & Hi & _ & ->).
    assert (Hk : reload_kont (kont t) = true).
    { apply Hr. by eapply list_elem_of_lookup_2. }
    destruct t as [aw me k]; destruct k; try done;
      unfold resume; unfold_methods; munfold; cbn;
      try (destruct (awaited _ _) as [| | [?|] | [?|] | |]; cbn);
      try (case_if; cbn);
      rewrite ?length_insert, ?length_app; lia.
  - apply exec_io_inv in He as (p & rq & _ & _ & ->). cbn.
    by rewrite length_insert.
Qed.

Lemma doUpdate_promise filePath item s :
  eval_M (doUpdate filePath item) s = length (promises s)
  ∧ (length (promises s) < length (promises (exec_M (doUpdate filePath item) s)))%nat.
Proof.
  unfold_methods. munfold. cbn.
  destruct (bool_decide (filePath ∈ ignoredFilePaths s)); cbn.
  { rewrite length_insert, length_app. cbn. lia. }
  destruct (updatePromise (item_at _ item)); cbn.
  { rewrite length_app. cbn. lia. }
  destruct (hasDocument (item_at _ item)); cbn; rewrite !length_app; cbn; lia.
Qed.

(** A second request while the first is still waiting joins the reload. *)
Lemma chain_join filePath item P tr0 lo ds s :
  chain filePath item P tr0 lo ds s →
  filePath ∉ ignoredFilePaths s →
  (∀ d, d ∈ ds → waiting item s d) →
  chain filePath item P tr0 lo (ds ++ [eval_M (doUpdate filePath item) s])
    (exec_M (doUpdate filePath item) s).
Proof.
  intros (ev & Htr & Hreads & Huniq & Hwait & Hds & Hlock & Hlt & Hphase) Hni Hall.
  specialize (Hlock Hall).
  assert (Hpa : ∀ q, settled s q = true →
            (promises s ++ [Pending]) !! q = promises s !! q).
  { intros q Hq. unfold settled, promise_at in *.
    destruct (promises s !! q) as [pr|] eqn:E; [|done].
    by rewrite (lookup_app_l_Some _ _ _ _ E). }
  unfold chain, waiting, returned, loading_phase, loaded_phase in *.
  unfold_methods. munfold. cbn.
  rewrite bool_decide_eq_false_2 by done. cbn. items_simpl. rewrite Hlock. cbn.
  exists ev. split_and!.
  - done.
  - done.
  - intros t path [Hin| ->%list_elem_of_singleton]%elem_of_app Hk; [eauto|done].
  - intros t [Hin| ->%list_elem_of_singleton]%elem_of_app Hk.
    + destruct (Hwait t Hin Hk). split; [|done]. apply elem_of_app. by left.
    + split; [|done]. apply elem_of_app. right. by left.
  - intros d [Hd| ->%list_elem_of_singleton]%elem_of_app.
    + left. destruct (Hall d Hd) as (t & Hin & Hs & Hk). exists t.
      split_and!; [|done|done]. apply elem_of_app. by left.
    + left. eexists.
      split; [apply elem_of_app; right; apply list_elem_of_singleton; reflexivity|].
      split; reflexivity.
  - intros _. items_norm. by rewrite !decide_True by done.
  - by rewrite length_alter.
  - destruct Hphase as [(rd & ld & Hlo & (tU & HinU & HU) & Hh & Hsub)
                       |(Hno & Hh & Hf & Hdoc)].
    + left. exists rd, ld. split_and!; [done| |done|].
      * exists tU. split; [apply elem_of_app; by left|done].
      * destruct Hsub as [(tL & l & u & HinL & HL)|(Hrd & Hld & Himp)].
        -- left. exists tL, l, u. split; [apply elem_of_app; by left|done].
        -- right. unfold settled, promise_at in *. cbn.
           rewrite !Hpa by done. done.
    + right. split_and!.
      * intros t path [Hin| ->%list_elem_of_singleton]%elem_of_app; [eauto|done].
      * done.
      * items_simpl. by rewrite (field_at_alter_keep fresh).
      * intros rd ld Hlo. destruct (Hdoc rd ld Hlo) as [Hrd Himp].
        items_simpl. rewrite (field_at_alter_keep document) by done.
        unfold settled, promise_at in *. cbn. rewrite !Hpa by done. done.
Qed.


End SingleFlight.

(** ** Every reload completes *)

(** The order in which suspended tasks depend on one another: a task only
    awaits promises of the environment or of tasks of lower rank. *)
Definition rank (k : cont) : nat :=
  match k with
  | KLoadDocument _ _ _ | KUpdateHooked _ _ => 0
  | KUpdateLoaded _ _ => 1
  | KDoUpdate _ => 2
  | _ => 3
  end.

(** Somebody will settle [q]: it is settled, or the environment owes it, or
    a task of rank below [n] owns it. *)
Definition served (s : State) (n : nat) (q : pid) : Prop :=
  settled s q = true
  ∨ q ∈ (pending_io s).*1
  ∨ ∃ t, t ∈ tasks s ∧ self t = q ∧ (rank (kont t) < n)%nat.

Definition live (s : State) : Prop :=
  (∀ t q, t ∈ tasks s → q ∈ awaits t → served s (rank (kont t)) q)
  ∧ (∀ r P, updatePromise (item_at s r) = Some P → served s 2 P).

Section Liveness.
Context `{Externals}.

Ltac unfold_methods :=
  unfold doUpdate, doUpdate_resume, getUpdatePromise, getUpdatePromise_fresh,
    getUpdatePromise_loaded, getUpdatePromise_hooked, loadDocumentFromFilePath,
    loadDocument_resume, onUpdate, readText, beFresh_resume in *.

Lemma quiescent_live s : quiescent s → live s.
Proof.
  intros (Ht & Hio & Hup). split.
  - intros t q Hin. rewrite Ht in Hin. by apply elem_of_nil in Hin.
  - intros r P. unfold item_at. destruct (heap s !! r) as [it|] eqn:Hl; cbn; [|done].
    rewrite (Hup it); [done|]. by eapply list_elem_of_lookup_2.
Qed.

Lemma weight_take s i t :
  tasks s !! i = Some t →
  weight s = (weight (set_tasks (delete i) s) + weight_kont (kont t))%nat.
Proof.
  intros Hi. unfold weight. cbn.
  assert (Hsum : ∀ (l : list task) j x, l !! j = Some x →
            sum_list_with (λ t, weight_kont (kont t)) l
            = (weight_kont (kont x)
               + sum_list_with (λ t, weight_kont (kont t)) (delete j l))%nat).
  { induction l as [|y l IH]; intros [|j] x Hl; try done.
    - cbn in Hl. injection Hl as ->. done.
    - cbn in Hl. cbn. rewrite (IH j x Hl). apply Nat.add_shuffle3. }
  rewrite (Hsum _ _ _ Hi). lia.
Qed.

(** What a resumption leaves for the tasks that depend on it. *)
Lemma resume_serves t0 s0 :
  reload_kont (kont t0) = true → pending s0 (self t0) →
  let s' := exec_M (resume t0) s0 in
  (settled s' (self t0) = true
   ∨ ∃ t, t ∈ tasks s' ∧ self t = self t0 ∧ rank (kont t) = 0%nat
          ∧ rank (kont t0) = 1%nat)
  ∧ (∀ x, x ∈ pending_io s0 → x ∈ pending_io s')
  ∧ (∀ t, t ∈ tasks s0 → t ∈ tasks s')
  ∧ (∀ t, t ∈ tasks s' →
          t ∈ tasks s0 ∨ ∀ q, q ∈ awaits t → q ∈ (pending_io s').*1)
  ∧ (∀ r P, updatePromise (item_at s' r) = Some P →
            updatePromise (item_at s0 r) = Some P)
  ∧ S (weight s') = (weight s0 + weight_kont (kont t0))%nat.
Proof.
  intros Hk Hp. apply pending_lt in Hp.
  destruct t0 as [aw me k]; destruct k; try done;
    unfold resume, weight; unfold_methods; munfold; cbn;
    try (destruct (awaited _ _) as [| | [?|] | [?|] | |]; cbn);
    try (case_if; cbn).
  all: split_and!.
  all: try (left; unfold settled; by rewrite promise_at_settle by done).
  all: try (right; eexists;
            split; [apply elem_of_app; right; apply list_elem_of_singleton; reflexivity|];
            done).
  all: try (intros x Hx; rewrite ?elem_of_app; by auto).
  all: try (intros ? Hin; by left).
  all: try (intros ? [Hin| ->%list_elem_of_singleton]%elem_of_app; [by left|right];
            intros q Hq; cbn in Hq; apply list_elem_of_singleton in Hq as ->;
            rewrite fmap_app, elem_of_app; right; cbn; apply list_elem_of_singleton; reflexivity).
  all: try (intros r P; items_simpl;
            repeat (rewrite (field_at_alter_keep updatePromise) by done); done).
  all: try (intros r P; items_norm; repeat case_decide; by cbn).
  all: try (rewrite ?sum_list_with_app, ?length_app; cbn; lia).
Qed.

Lemma settled_lt s q : settled s q = true → (q < length (promises s))%nat.
Proof.
  unfold settled, promise_at. destruct (promises s !! q) eqn:E; [|done].
  intros _. by eapply lookup_lt_Some.
Qed.

Lemma served_grow s s' n q :
  served s n q →
  (∀ x, settled s x = true → settled s' x = true) →
  (∀ x, x ∈ pending_io s → x ∈ pending_io s') →
  (∀ t, t ∈ tasks s → t ∈ tasks s') →
  served s' n q.
Proof.
  intros [Hs|[Hio|(t & Hin & Hself & Hrk)]] Hset Hreq Hts.
  - left. by apply Hset.
  - right; left. apply list_elem_of_fmap in Hio as (x & -> & Hx).
    apply list_elem_of_fmap_2. by apply Hreq.
  - right; right. exists t. split_and!; [by apply Hts|done|done].
Qed.

Lemma served_weaken s n m q : (n ≤ m)%nat → served s n q → served s m q.
Proof.
  intros Hle [Hs|[Hio|(t & Hin & Hself & Hrk)]]; [by left|by right; left|].
  right; right. exists t. split_and!; [done|done|lia].
Qed.

Lemma live_grow s s' :
  live s →
  (∀ x, settled s x = true → settled s' x = true) →
  (∀ x, x ∈ pending_io s → x ∈ pending_io s') →
  (∀ t, t ∈ tasks s → t ∈ tasks s') →
  (∀ t, t ∈ tasks s' →
        t ∈ tasks s ∨ ∀ q, q ∈ awaits t → served s' (rank (kont t)) q) →
  (∀ r P, updatePromise (item_at s' r) = Some P →
          updatePromise (item_at s r) = Some P ∨ served s' 2 P) →
  live s'.
Proof.
  intros [L1 L2] Hset Hreq Hts Hnew Hup. split.
  - intros t q Hin Hq. destruct (Hnew t Hin) as [Hold|Hserved]; [|by apply Hserved].
    apply (served_grow s); [by apply L1|done..].
  - intros r P HP. destruct (Hup r P HP) as [Hold|Hserved]; [|done].
    apply (served_grow s); [by apply (L2 r)|done..].
Qed.

(** An internal step keeps every promise served, by a task of the same rank
    at most. *)
Lemma exec_served a s s' n q :
  internal a = true → exec a s = Some s' → coherent s →
  served s n q → served s' n q.
Proof.
  intros Hint He (Hw & Hl & Hr) Hq.
  assert (Hstable : ∀ x, settled s x = true → settled s' x = true).
  { intros x Hx. unfold settled.
    rewrite (exec_settled_stable a s s' x Hint He Hw Hr Hx). exact Hx. }
  destruct a as [c|i|i v]; [done| |].
  - apply exec_run_inv in He as (t0 & Hi & Hready & ->).
    assert (Hk : reload_kont (kont t0) = true).
    { apply Hr. by eapply list_elem_of_lookup_2. }
    destruct (store_wf_take s i t0 Hw Hi) as [Hw0 [_ Hp0]].
    destruct (resume_serves t0 (set_tasks (delete i) s) Hk Hp0)
      as (Hself & Hreq & Hts & _).
    destruct Hq as [Hs|[Hio|(t & Hin & Hme & Hrk)]].
    + left. by apply Hstable.
    + right; left. apply list_elem_of_fmap in Hio as (x & -> & Hx).
      apply list_elem_of_fmap_2. by apply Hreq.
    + destruct (elem_of_delete_or _ _ _ _ Hin Hi) as [->|Hd].
      * destruct Hself as [Hs|(t' & Hin' & Hme' & Hrk' & Hrk0)].
        -- left. by rewrite <- Hme.
        -- right; right. exists t'. split_and!; [done|congruence|lia].
      * right; right. exists t. split_and!; [by apply Hts|done|done].
  - apply exec_io_inv in He as (p & rq & Hi & Ha & Hs').
    destruct Hq as [Hs|[Hio|(t & Hin & Hme & Hrk)]].
    + left. by apply Hstable.
    + apply list_elem_of_fmap in Hio as ([q' rq'] & -> & Hx). cbn.
      destruct (elem_of_delete_or _ _ _ _ Hx Hi) as [[= -> ->]|Hd].
      * left. subst s'. unfold settled. rewrite promise_at_settle; [done|].
        cbn. apply pending_lt. apply Hw. unfold owners. apply elem_of_app. right.
        by apply (list_elem_of_fmap_2 fst _ (p, rq)).
      * right; left. subst s'. cbn. by apply (list_elem_of_fmap_2 fst _ (q', rq')).
    + right; right. exists t. subst s'. by split_and!.
Qed.

(** An internal step keeps the pool live and takes one unit of weight. *)
Lemma exec_live a s s' :
  internal a = true → exec a s = Some s' → coherent s → live s →
  live s' ∧ weight s = S (weight s').
Proof.
  intros Hint He Hc [L1 L2].
  pose proof (λ n q, exec_served a s s' n q Hint He Hc) as Hmono.
  destruct Hc as (Hw & Hl & Hr).
  destruct a as [c|i|i v]; [done| |].
  - apply exec_run_inv in He as (t0 & Hi & Hready & ->).
    assert (Hk : reload_kont (kont t0) = true).
    { apply Hr. by eapply list_elem_of_lookup_2. }
    destruct (store_wf_take s i t0 Hw Hi) as [Hw0 [_ Hp0]].
    destruct (resume_serves t0 (set_tasks (delete i) s) Hk Hp0)
      as (_ & _ & _ & Hnew & Hup & Hwt).
    split; [split|].
    + intros t q Hin Hq. destruct (Hnew t Hin) as [Hold|Hreq].
      * apply Hmono, L1; [|done]. exact (list_elem_of_delete_inv _ _ _ Hold).
      * right; left. by apply Hreq.
    + intros r P HP. apply Hmono, (L2 r). apply Hup in HP.
      by rewrite item_at_set_tasks in HP.
    + rewrite (weight_take s i t0 Hi). lia.
  - apply exec_io_inv in He as (p & rq & Hi & Ha & ->).
    split; [split|].
    + intros t q Hin Hq. apply Hmono. by apply L1.
    + intros r P HP. apply Hmono, (L2 r). exact HP.
    + unfold weight. cbn. rewrite length_delete by (by eexists).
      apply lookup_lt_Some in Hi. lia.
Qed.

Lemma not_ready s t :
  ready s t = false → ∃ q, q ∈ awaits t ∧ settled s q = false.
Proof.
  unfold ready. induction (awaits t) as [|q qs IH]; cbn; [done|].
  destruct (settled s q) eqn:Hq; cbn.
  - intros (x & Hin & Hx)%IH. exists x. split; [by right|done].
  - intros _. exists q. split; [by left|done].
Qed.

(** With no request pending, some task of a live pool may resume. *)
Lemma some_ready s n :
  live s → pending_io s = [] →
  ∀ t, t ∈ tasks s → (rank (kont t) < n)%nat →
       ∃ t', t' ∈ tasks s ∧ ready s t' = true.
Proof.
  intros [L1 _] Hio. induction n as [|n IH]; intros t Hin Hrk; [lia|].
  destruct (ready s t) eqn:Hready; [by exists t|].
  apply not_ready in Hready as (q & Hq & Hpend).
  destruct (L1 t q Hin Hq) as [Hs|[Hreq|(t' & Hin' & _ & Hrk')]].
  - congruence.
  - rewrite Hio in Hreq. by apply elem_of_nil in Hreq.
  - apply (IH t'); [done|lia].
Qed.

Lemma first_ready_some s ts k t :
  t ∈ ts → ready s t = true →
  ∃ i t', first_ready s ts k = Some (k + i)%nat ∧ ts !! i = Some t'
          ∧ ready s t' = true.
Proof.
  revert k. induction ts as [|x ts IH]; intros k Hin Hready.
  - by apply elem_of_nil in Hin.
  - cbn. destruct (ready s x) eqn:Hx.
    + exists 0%nat, x. by rewrite Nat.add_0_r.
    + apply elem_of_cons in Hin as [->|Hin]; [congruence|].
      destruct (IH (S k) Hin Hready) as (i & t' & Hf & Hl & Hr).
      exists (S i), t'. split_and!; [|done|done].
      rewrite Hf. f_equal. lia.
Qed.

Lemma weight_zero s : weight s = 0%nat → tasks s = [] ∧ pending_io s = [].
Proof.
  unfold weight. destruct (tasks s) as [|t ts]; cbn.
  - intros Hl. split; [done|]. by apply length_zero_iff_nil.
  - destruct (kont t); cbn; lia.
Qed.

Lemma rank_bound k : (rank k < 4)%nat.
Proof. destruct k; cbn; lia. Qed.

(** The scheduler always finds a step, until nothing is left to do. *)
Lemma progress e s :
  live s → env_ok e → weight s ≠ 0%nat →
  ∃ a s', next_action e s = Some a ∧ internal a = true ∧ exec a s = Some s'.
Proof.
  intros Hlive He Hwt. unfold next_action.
  destruct (pending_io s) as [|[p rq] io] eqn:Hio.
  - assert (Hex : ∃ t, t ∈ tasks s).
    { destruct (tasks s) as [|t ts] eqn:Hts; [|exists t; by left].
      unfold weight in Hwt. by rewrite Hts, Hio in Hwt. }
    destruct Hex as [t Hin].
    destruct (some_ready s 4 Hlive Hio t Hin (rank_bound _)) as (t' & Hin' & Hready).
    destruct (first_ready_some s (tasks s) 0 t' Hin' Hready) as (i & t1 & Hf & Hl & Hr).
    rewrite Hf. exists (ARun i), (exec_M (resume t1) (set_tasks (delete i) s)).
    split_and!; [done|done|]. cbn. by rewrite Hl, Hr.
  - exists (AIo 0 (e rq)). cbn. rewrite Hio. cbn. rewrite (He rq). eauto.
Qed.

(** Every run of the scheduler is a run of internal steps that preserves
    what internal steps preserve. *)
Lemma drain_run e n s : ∃ acts,
  forallb internal acts = true ∧ run acts s = Some (drain n e s)
  ∧ ∀ a, a ∈ acts → ∃ σ, next_action e σ = Some a.
Proof.
  revert s. induction n as [|n IH]; intros s; cbn.
  { exists []. split_and!; [done|done|]. intros a Ha. by apply elem_of_nil in Ha. }
  destruct (next_action e s) as [a|] eqn:Hn; cycle 1.
  { exists []. split_and!; [done|done|]. intros a Ha. by apply elem_of_nil in Ha. }
  destruct (exec a s) as [s1|] eqn:He; cycle 1.
  { exists []. split_and!; [done|done|]. intros a' Ha. by apply elem_of_nil in Ha. }
  destruct (IH s1) as (acts & Hint & Hrun & Hsched).
  exists (a :: acts). cbn. rewrite He. split_and!; [|done|].
  - rewrite Hint, andb_true_r. unfold next_action in Hn.
    destruct (pending_io s) as [|[? ?] ?]; [|by injection Hn as <-].
    destruct (first_ready s (tasks s) 0); [|done]. by injection Hn as <-.
  - intros a' [->|Ha]%elem_of_cons; [by exists s|by apply Hsched].
Qed.

Lemma drain_invariant e (I : State → Prop) :
  (∀ a s s', next_action e s = Some a → exec a s = Some s' → I s → I s') →
  ∀ n s, I s → I (drain n e s).
Proof.
  intros Hstep. induction n as [|n IH]; intros s HI; cbn; [done|].
  destruct (next_action e s) as [a|] eqn:Hn; [|done].
  destruct (exec a s) as [s1|] eqn:He; [|done]. eauto.
Qed.

Lemma next_action_internal e s a : next_action e s = Some a → internal a = true.
Proof.
  unfold next_action. destruct (pending_io s) as [|[? ?] ?]; [|by intros [= <-]].
  destruct (first_ready s (tasks s) 0); [|done]. by intros [= <-].
Qed.

(** The scheduler empties a live pool of reloads. *)
Lemma drain_completes e n s :
  coherent s → live s → env_ok e → (weight s ≤ n)%nat →
  tasks (drain n e s) = [] ∧ pending_io (drain n e s) = [].
Proof.
  intros Hc Hlive He. revert s Hc Hlive.
  induction n as [|n IH]; intros s Hc Hlive Hwt.
  { apply weight_zero. cbn. lia. }
  destruct (decide (weight s = 0%nat)) as [Hz|Hnz].
  - destruct (weight_zero s Hz) as [Hts Hio]. cbn. unfold next_action.
    by rewrite Hio, Hts.
  - destruct (progress e s Hlive He Hnz) as (a & s1 & Hn & Hint & Hex).
    cbn. rewrite Hn, Hex.
    destruct (exec_live a s s1 Hint Hex Hc Hlive) as [Hlive1 Hw1].
    apply IH; [exact (exec_coherent a s s1 Hint Hex Hc)|exact Hlive1|lia].
Qed.

Ltac settled_grow :=
  let x := fresh "x" in
  let Hx := fresh "Hx" in
  intros x Hx; pose proof (settled_lt _ _ Hx);
  unfold settled, promise_at in *; cbn;
  repeat first
    [ rewrite list_lookup_insert_ne by (rewrite ?length_app; cbn; lia)
    | rewrite lookup_app_l by (rewrite ?length_app; cbn; lia) ];
  exact Hx.

Ltac state_cbn :=
  cbn [tasks pending_io promises heap trace set_heap set_tasks set_promises
       set_pending_io set_trace set_allFresh set_tmap].

Ltac served_by_last :=
  right; right; eexists;
  split; [cbn; rewrite !elem_of_app, !list_elem_of_singleton; right; reflexivity|];
  cbn; rewrite ?length_app; cbn; split; [reflexivity + lia|lia].

(** A reload request keeps the pool live; its own promise is settled (for an
    ignored path) or owned by its suspended continuation. *)
Lemma doUpdate_live filePath item s :
  live s → (item < length (heap s))%nat →
  let d := eval_M (doUpdate filePath item) s in
  let s' := exec_M (doUpdate filePath item) s in
  live s' ∧ served s' 3 d
  ∧ (∀ x, settled s x = true → settled s' x = true)
  ∧ (∀ x, x ∈ pending_io s → x ∈ pending_io s').
Proof.
  intros Hlive Hlt. pose proof Hlive as [L1 L2].
  unfold_methods. munfold. cbn.
  destruct (bool_decide (filePath ∈ ignoredFilePaths s)); cbn.
  { assert (Hset : ∀ x, settled s x = true →
              settled (set_promises (λ ps, <[length (promises s) := Settled (VBool false)]> ps)
                         (set_promises (λ ps, ps ++ [Pending]) s)) x = true)
      by settled_grow.
    split_and!; [|left|exact Hset|done].
    - apply (live_grow s); cbn; try done; [by left..].
    - unfold settled. rewrite promise_at_settle; [done|].
      cbn. rewrite length_app. cbn. lia. }
  destruct (updatePromise (item_at _ item)) as [P|] eqn:Hup; cbn.
  - items_simpl in Hup.
    assert (Hset : ∀ x, settled s x = true →
              settled (set_promises (λ ps, ps ++ [Pending]) s) x = true)
      by settled_grow.
    split_and!; [|served_by_last|exact Hset|done].
    apply (live_grow s); cbn; try done.
    + intros t Hin. apply elem_of_app. by left.
    + intros t [?| ->%list_elem_of_singleton]%elem_of_app; [by left|right].
      intros q ->%list_elem_of_singleton. cbn.
      apply (served_grow s); cbn; [by apply (L2 item)|exact Hset|done|].
      intros t Hin. apply elem_of_app. by left.
    + intros r P'. items_norm.
      destruct (decide (item = r)) as [<-|]; [|by left].
      rewrite decide_True by done. cbn. intros [= <-]. by left.
  - items_simpl in Hup.
    destruct (hasDocument (item_at _ item)) eqn:Hdoc; cbn.
    + assert (Hset : ∀ x, settled s x = true →
                settled (set_promises (λ ps, ps ++ [Pending])
                  (set_promises (λ ps, ps ++ [Pending])
                    (set_promises (λ ps, ps ++ [Pending]) s))) x = true)
        by settled_grow.
      split_and!; [|served_by_last|exact Hset|].
      * apply (live_grow s); cbn; try done.
        -- intros x Hx. apply elem_of_app. by left.
        -- intros t Hin. rewrite !elem_of_app. auto.
        -- intros t. rewrite !elem_of_app, !list_elem_of_singleton.
           intros [[?| ->]| ->]; [by left|right|right];
             intros q ->%list_elem_of_singleton; cbn.
           ++ right; left. state_cbn. rewrite fmap_app, elem_of_app. right. cbn.
              apply list_elem_of_singleton. reflexivity.
           ++ right; right. eexists.
              split; [state_cbn; rewrite !elem_of_app, !list_elem_of_singleton;
                      left; right; reflexivity|].
              cbn. split; [reflexivity|lia].
        -- intros r P'. items_norm.
           destruct (decide (item = r)) as [<-|]; [|by left].
           rewrite !decide_True by done. cbn. intros [= <-]. right.
           right; right. eexists.
           split; [state_cbn; rewrite !elem_of_app, !list_elem_of_singleton;
                   left; right; reflexivity|].
           cbn. split; [reflexivity|lia].
      * intros x Hx. apply elem_of_app. by left.
    + assert (Hset : ∀ x, settled s x = true →
                settled (set_promises (λ ps, ps ++ [Pending])
                  (set_promises (λ ps, ps ++ [Pending])
                    (set_promises (λ ps, ps ++ [Pending])
                      (set_promises (λ ps, ps ++ [Pending]) s)))) x = true)
        by settled_grow.
      split_and!; [|served_by_last|exact Hset|].
      * apply (live_grow s); cbn; try done.
        -- intros x Hx. apply elem_of_app. by left.
        -- intros t Hin. rewrite !elem_of_app. auto.
        -- intros t. rewrite !elem_of_app, !list_elem_of_singleton.
           intros [[[?| ->]| ->]| ->]; [by left|right|right|right];
             intros q ->%list_elem_of_singleton; cbn.
           ++ right; left. state_cbn. rewrite fmap_app, elem_of_app. right. cbn.
              apply list_elem_of_singleton. reflexivity.
           ++ right; right. eexists.
              split; [state_cbn; rewrite !elem_of_app, !list_elem_of_singleton;
                      left; left; right; reflexivity|].
              cbn. split; [reflexivity|lia].
           ++ right; right. eexists.
              split; [state_cbn; rewrite !elem_of_app, !list_elem_of_singleton;
                      left; right; reflexivity|].
              cbn. split; [reflexivity|lia].
        -- intros r P'. items_norm.
           destruct (decide (item = r)) as [<-|]; [|by left].
           rewrite !decide_True by done. cbn. intros [= <-]. right.
           right; right. eexists.
           split; [state_cbn; rewrite !elem_of_app, !list_elem_of_singleton;
                   left; right; reflexivity|].
           cbn. split; [reflexivity|lia].
      * intros x Hx. apply elem_of_app. by left.
Qed.

Lemma beFresh_loop_live entries : ∀ s ps s',
  beFresh_loop entries s = (ps, s') →
  live s →
  (∀ p r, (p, r) ∈ entries → (r < length (heap s))%nat) →
  live s'
  ∧ (∀ q, q ∈ ps → served s' 3 q)
  ∧ (∀ x, settled s x = true → settled s' x = true)
  ∧ (∀ x, x ∈ pending_io s → x ∈ pending_io s')
  ∧ (∀ t, t ∈ tasks s → t ∈ tasks s').
Proof.
  induction entries as [|[p r] rest IH]; intros s ps s' Heq Hlive Hrefs.
  - cbn in Heq. injection Heq as <- <-. split_and!; try done.
    intros q Hq. by apply elem_of_nil in Hq.
  - destruct (fresh (item_at s r)) eqn:Hfr.
    + rewrite beFresh_loop_cons_fresh in Heq by done.
      apply (IH s ps s' Heq Hlive). intros p' r' Hin. apply (Hrefs p' r'). by right.
    + rewrite beFresh_loop_cons_stale in Heq by done.
      set (s1 := exec_M (doUpdate p r) s) in *.
      set (d := eval_M (doUpdate p r) s) in *.
      injection Heq as <- <-.
      assert (Hr : (r < length (heap s))%nat) by (apply (Hrefs p r); left).
      destruct (doUpdate_live p r s Hlive Hr) as (Hlive1 & Hd & Hset1 & Hreq1).
      fold s1 in Hlive1, Hd, Hset1, Hreq1. fold d in Hd.
      destruct (doUpdate_frame p r s) as (_ & Hlen1 & Hts1 & _).
      fold s1 in Hlen1, Hts1.
      destruct (IH s1 _ _ (surjective_pairing _) Hlive1)
        as (Hlive' & Hps & Hset & Hreq & Hts).
      { intros p' r' Hin. rewrite Hlen1. apply (Hrefs p' r'). by right. }
      fold (exec_M (beFresh_loop rest) s1) in *.
      fold (eval_M (beFresh_loop rest) s1) in *.
      split_and!; [done| |auto|auto|auto].
      intros q [->|Hq]%elem_of_cons; [|by apply Hps].
      by apply (served_grow s1).
Qed.

(** beFresh keeps the pool live, and its promise is settled at once or owned
    by its suspended continuation. *)
Lemma beFresh_live s :
  coherent s → live s → registry_refs s → startPathLoaded s = true →
  let b := eval_M beFresh s in
  let s1 := exec_M beFresh s in
  coherent s1 ∧ live s1 ∧ served s1 4 b.
Proof.
  intros Hc Hlive Hrefs Hsp. destruct (allFresh s) eqn:Haf.
  - unfold beFresh. munfold. cbn. rewrite Haf. cbn.
    assert (Hset : ∀ x, settled s x = true →
              settled (set_promises (λ ps, <[length (promises s) := Settled VUndefined]> ps)
                         (set_promises (λ ps, ps ++ [Pending]) s)) x = true)
      by settled_grow.
    destruct Hc as (Hw & Hl & Hr). unfold coherent. split_and!.
    + store_tac.
    + exact Hl.
    + exact Hr.
    + apply (live_grow s); cbn; try done; [by left..].
    + left. unfold settled. rewrite promise_at_settle; [done|].
      cbn. rewrite length_app. cbn. lia.
  - destruct (beFresh_establishes s Hc Hrefs Haf Hsp) as [Hc1 _].
    split; [exact Hc1|]. clear Hc1.
    unfold eval_M, exec_M. rewrite beFresh_stale by done.
    cbn zeta. cbn [fst snd].
    set (s0 := set_trace _ (set_promises _ s)).
    destruct (beFresh_loop (tmap s) s0) as [ps s2] eqn:Hloop. cbn [fst snd].
    assert (Hset0 : ∀ x, settled s x = true → settled s0 x = true)
      by (subst s0; settled_grow).
    assert (Hlive0 : live s0).
    { apply (live_grow s); subst s0; cbn; try done; [by left..]. }
    destruct (beFresh_loop_live _ _ _ _ Hloop Hlive0) as (Hlive2 & Hps & _).
    { intros p r Hin. by apply (Hrefs p r). }
    split.
    + apply (live_grow s2); cbn; try done.
      * intros t Hin. apply elem_of_app. by left.
      * intros t [?| ->%list_elem_of_singleton]%elem_of_app; [by left|right].
        intros q Hq. cbn in Hq. cbn [kont rank].
        apply (served_grow s2); cbn; [by apply Hps|done|done|].
        intros t Hin. apply elem_of_app. by left.
      * intros r P. items_simpl. by left.
    + right; right. eexists.
      split; [state_cbn; rewrite elem_of_app, list_elem_of_singleton; right; reflexivity|].
      cbn. split; [reflexivity|lia].
Qed.

(** Whatever is served in a live pool of reloads is settled once the
    scheduler has run. *)
Lemma drain_settles e n k s q :
  coherent s → live s → env_ok e → (weight s ≤ n)%nat →
  served s k q → settled (drain n e s) q = true.
Proof.
  intros Hc Hlive He Hwt Hq.
  destruct (drain_completes e n s Hc Hlive He Hwt) as [Hts Hio].
  assert (HI : coherent (drain n e s) ∧ served (drain n e s) k q).
  { apply (drain_invariant e (λ σ, coherent σ ∧ served σ k q)); [|by split].
    intros a σ σ' Hn Hex [Hcσ Hqσ].
    pose proof (next_action_internal e σ a Hn) as Hint. split.
    - exact (exec_coherent a σ σ' Hint Hex Hcσ).
    - exact (exec_served a σ σ' k q Hint Hex Hcσ Hqσ). }
  destruct HI as [_ [Hs|[Hreq|(t & Hin & _)]]]; [done| |].
  - rewrite Hio in Hreq. by apply elem_of_nil in Hreq.
  - rewrite Hts in Hin. by apply elem_of_nil in Hin.
Qed.

(** The scheduler answers a pending read by what the environment says. *)
Lemma drain_read e filePath rd v n s :
  coherent s → e (RReadText filePath) = v →
  (rd, RReadText filePath) ∈ pending_io s ∨ promise_at s rd = Settled v →
  coherent (drain n e s)
  ∧ ((rd, RReadText filePath) ∈ pending_io (drain n e s)
     ∨ promise_at (drain n e s) rd = Settled v).
Proof.
  intros Hc Hev HJ.
  apply (drain_invariant e (λ σ, coherent σ
           ∧ ((rd, RReadText filePath) ∈ pending_io σ ∨ promise_at σ rd = Settled v)));
    [|by split].
  clear s Hc HJ. intros a s s' Hn Hex [Hc HJ].
  pose proof (next_action_internal e s a Hn) as Hint.
  split; [exact (exec_coherent a s s' Hint Hex Hc)|].
  pose proof Hc as (Hw & Hl & Hr).
  destruct HJ as [Hin|Hv].
  - destruct a as [c|i|i w]; [done| |].
    + apply exec_run_inv in Hex as (t0 & Hi & Hready & ->).
      assert (Hk : reload_kont (kont t0) = true).
      { apply Hr. by eapply list_elem_of_lookup_2. }
      destruct (store_wf_take s i t0 Hw Hi) as [Hw0 [_ Hp0]].
      destruct (resume_serves t0 (set_tasks (delete i) s) Hk Hp0) as (_ & Hreq & _).
      left. by apply Hreq.
    + unfold next_action in Hn.
      destruct (pending_io s) as [|[p rq] io] eqn:Hio; [by apply elem_of_nil in Hin|].
      injection Hn as <- <-.
      apply exec_io_inv in Hex as (p' & rq' & Hi & Ha & ->).
      rewrite Hio in Hi. cbn in Hi. injection Hi as <- <-.
      cbn. rewrite Hio. cbn.
      apply elem_of_cons in Hin as [[= -> <-]|Hin]; [right|by left].
      rewrite Hev. apply promise_at_settle. cbn.
      apply pending_lt, Hw. unfold owners. rewrite Hio. apply elem_of_app. right.
      cbn. by left.
  - right. rewrite (exec_settled_stable a s s' rd Hint Hex Hw Hr); [done|].
    unfold settled. by rewrite Hv.
Qed.

(** A first request for a record without open document asks the
    environment for the text of the file. *)
Lemma doUpdate_reads filePath item s :
  filePath ∉ ignoredFilePaths s → updatePromise (item_at s item) = None →
  hasDocument (item_at s item) = false →
  (length (promises s) + 3, RReadText filePath)%nat
    ∈ pending_io (exec_M (doUpdate filePath item) s).
Proof.
  intros Hni Hup Hdoc. unfold_methods. munfold. cbn.
  rewrite bool_decide_eq_false_2 by done. cbn. items_simpl. rewrite Hup. cbn.
  items_simpl. rewrite Hdoc. cbn. apply elem_of_app. right.
  apply list_elem_of_singleton. rewrite !length_app. cbn. f_equal. lia.
Qed.


End Liveness.

Lemma quiescent_idle s item : quiescent s → idle s item.
Proof.
  intros (Ht & Hio & Hup). unfold idle. rewrite Ht. split_and!.
  - unfold item_at. destruct (heap s !! item) as [it|] eqn:Hl; cbn; [|done].
    apply Hup. by eapply list_elem_of_lookup_2.
  - intros t Hin. by apply elem_of_nil in Hin.
  - intros t path Hin. by apply elem_of_nil in Hin.
Qed.

(** * Concurrent reloads on concrete trackers *)

Module Scenarios.
Import Posix Examples.

(** The events recorded since the state [s]. *)
Definition events_since (s s' : State) : list event :=
  drop (length (trace s)) (trace s').

(** An environment in which every read of a file fails. *)
Definition failing : env :=
  λ rq, match rq with
        | RReadText _ => VText None
        | RGetStat _ => VStat StatOther
        | RGlob _ _ => VPaths []
        | ROnUpdate _ _ => VUndefined
        end.

Lemma failing_ok : env_ok failing.
Proof. intros [?|?|? ?|? ?]; reflexivity. Defined.

Lemma registry_refs_tracked : registry_refs tracked.
Proof.
  intros p r Hin. vm_compute in Hin.
  apply list_elem_of_singleton in Hin as [= -> ->]. vm_compute. lia.
Defined.

Lemma not_ignored_tracked : "/p/a.css" ∉ ignoredFilePaths tracked.
Proof. apply (proj1 (bool_decide_eq_false _)). vm_compute. reflexivity. Defined.




End Scenarios.
